(** * ElasticPress instant results: [assets/js/instant-results/functions.js]

    A shallow embedding of the helpers of [functions.js] and the proofs of
    the properties its specification states about them: the schema-driven
    codec between a search-arguments object and URL query parameters
    ([getUrlParamsFromArgs], [getArgsFromUrlParams]), the prefixed rewrite of
    the current URL ([getUrlWithParams]), the post-type extraction from a
    search form ([getPostTypesFromForm]) and the price formatter
    ([formatPrice]).

    Modelling conventions.
    - JavaScript values are the inductive [JsVal]; numbers are the integers
      (the codec never inspects a number, it only hands it to a sanitizer or
      to [ToString], which prints an integer in decimal as JavaScript does
      below 10^21).
    - A string is a [string]; [prefix + arg] is [append] and
      [key.startsWith(p)] is [String.prefix p key].
    - An ordinary object is the list of its own enumerable properties in
      enumeration order, with distinct keys ([JsObject]); a property that is
      not there reads as [undefined]. Inherited properties and the special
      key [__proto__] are outside the model.
    - [URLSearchParams] and [FormData] are ordered multimaps: lists of
      (name, value) pairs with the operations of the URL and XHR standards.
    - [sanitizeArg] and [sanitizeParam] are imported from [./utilities];
      they are parameters of the codec. The URL parser and serializer, the
      ambient [window.location.href] and [navigator.language], and
      [Intl.NumberFormat] are parameters of the functions that use them. *)

From Stdlib Require Import List String Ascii Bool ZArith Lia Permutation.
From Stdlib Require Import Numbers.DecimalString.
Import ListNotations.

Set Warnings "-register-all".

Open Scope list_scope.
Open Scope string_scope.

(* ------------------------------------------------------------------ *)
(** ** JavaScript values *)

Inductive JsVal : Type :=
| JUndefined : JsVal
| JNull : JsVal
| JBool (b : bool) : JsVal
| JNum (z : Z) : JsVal
| JStr (s : string) : JsVal
| JArr (items : list JsVal) : JsVal.

(** [typeof v]. *)
Definition typeof (v : JsVal) : string :=
  match v with
  | JUndefined => "undefined"
  | JNull => "object"
  | JBool _ => "boolean"
  | JNum _ => "number"
  | JStr _ => "string"
  | JArr _ => "object"
  end.

(** [v !== null]. *)
Definition not_null (v : JsVal) : bool :=
  match v with
  | JNull => false
  | _ => true
  end.

(** [Array.prototype.join] on strings. *)
Fixpoint join (sep : string) (l : list string) : string :=
  match l with
  | [] => ""
  | [s] => s
  | s :: t => s ++ sep ++ join sep t
  end.

(** [ToString]: the conversion [URLSearchParams.set] applies to its value. *)
Fixpoint ToString (v : JsVal) : string :=
  match v with
  | JUndefined => "undefined"
  | JNull => "null"
  | JBool true => "true"
  | JBool false => "false"
  | JNum z => NilEmpty.string_of_int (Z.to_int z)
  | JStr s => s
  | JArr items =>
      join ","
        (map (fun x => match x with
                       | JUndefined | JNull => ""
                       | _ => ToString x
                       end) items)
  end.

(* ------------------------------------------------------------------ *)
(** ** Ordinary objects *)

Definition JsObject : Type := list (string * JsVal).

(** Own-property lookup. *)
Fixpoint obj_lookup (o : JsObject) (k : string) : option JsVal :=
  match o with
  | [] => None
  | (k', v) :: t => if String.eqb k' k then Some v else obj_lookup t k
  end.

(** [o[k]]. *)
Definition obj_get (o : JsObject) (k : string) : JsVal :=
  match obj_lookup o k with
  | Some v => v
  | None => JUndefined
  end.

(** [o[k] = v]: an existing property keeps its place, a new one goes last. *)
Fixpoint obj_set (o : JsObject) (k : string) (v : JsVal) : JsObject :=
  match o with
  | [] => [(k, v)]
  | (k', v') :: t =>
      if String.eqb k' k then (k', v) :: t else (k', v') :: obj_set t k v
  end.

(** [{ ...a, ...b }]. *)
Definition obj_spread (a b : JsObject) : JsObject :=
  fold_left (fun o kv => obj_set o (fst kv) (snd kv)) b a.

Definition obj_keys (o : JsObject) : list string := map fst o.

(* ------------------------------------------------------------------ *)
(** ** URLSearchParams *)

Definition URLSearchParams : Type := list (string * string).

Definition usp_keys (l : URLSearchParams) : list string := map fst l.

Definition usp_getAll (l : URLSearchParams) (name : string) : list string :=
  map snd (filter (fun e => String.eqb (fst e) name) l).

Definition usp_has (l : URLSearchParams) (name : string) : bool :=
  existsb (fun e => String.eqb (fst e) name) l.

(** [get]: the first value of the name, [null] when there is none. *)
Definition usp_get (l : URLSearchParams) (name : string) : JsVal :=
  match usp_getAll l name with
  | v :: _ => JStr v
  | [] => JNull
  end.

(** [delete]: every pair of the name goes. *)
Definition usp_delete (l : URLSearchParams) (name : string) : URLSearchParams :=
  filter (fun e => negb (String.eqb (fst e) name)) l.

(** [set]: the first pair of the name takes the value and the others go;
    without such a pair, a new one is appended. *)
Fixpoint usp_set (l : URLSearchParams) (name value : string)
  : URLSearchParams :=
  match l with
  | [] => [(name, value)]
  | (k, v) :: t =>
      if String.eqb k name
      then (k, value) :: usp_delete t name
      else (k, v) :: usp_set t name value
  end.

(* ------------------------------------------------------------------ *)
(** ** The argument schema *)

Record ArgSchema : Type := mkArgSchema {
  type : string;
  default : option JsVal;
  allowedValues : option (list JsVal)
}.

(** [Object.entries(schema)]: the schema's keys are distinct. *)
Definition Schema : Type := list (string * ArgSchema).

Definition schema_keys (schema : Schema) : list string := map fst schema.

(* ------------------------------------------------------------------ *)
(** ** The codec *)

Section Codec.

Variable sanitizeParam : JsVal -> ArgSchema -> JsVal.
Variable sanitizeArg : JsVal -> ArgSchema -> bool -> JsVal.

(** The body of the [forEach] callback of [getUrlParamsFromArgs]. *)
Definition param_step (args : JsObject) (prefix : string)
    (urlParams : URLSearchParams) (entry : string * ArgSchema)
  : URLSearchParams :=
  let '(arg, options) := entry in
  let param := prefix ++ arg in
  let value :=
    if negb (String.eqb (typeof (obj_get args arg)) "undefined")
    then sanitizeParam (obj_get args arg) options
    else JNull in
  if not_null value then usp_set urlParams param (ToString value)
  else urlParams.

(** [getUrlParamsFromArgs(args, schema, prefix = '')]. *)
Definition getUrlParamsFromArgs (args : JsObject) (schema : Schema)
    (prefix : string) : URLSearchParams :=
  fold_left (param_step args prefix) schema [].

(** The reducer of [getArgsFromUrlParams]. *)
Definition arg_step (urlParams : URLSearchParams) (prefix : string)
    (useDefaults : bool) (args : JsObject) (entry : string * ArgSchema)
  : JsObject :=
  let '(arg, options) := entry in
  let param := usp_get urlParams (prefix ++ arg) in
  let value :=
    if negb (String.eqb (typeof param) "undefined")
    then sanitizeArg param options useDefaults
    else JNull in
  if not_null value then obj_set args arg value else args.

(** [getArgsFromUrlParams(urlParams, schema, prefix = '', useDefaults = true)]. *)
Definition getArgsFromUrlParams (urlParams : URLSearchParams)
    (schema : Schema) (prefix : string) (useDefaults : bool) : JsObject :=
  fold_left (arg_step urlParams prefix useDefaults) schema [].

End Codec.

(* ------------------------------------------------------------------ *)
(** ** The search form *)

(** A [FormData] entry value is a string or a file. *)
Inductive FormDataEntryValue : Type :=
| FString (s : string) : FormDataEntryValue
| FFile (filename : string) : FormDataEntryValue.

(** [new FormData(form)]: the entry list of the form, in tree order. *)
Definition FormData : Type := list (string * FormDataEntryValue).

Definition fd_has (data : FormData) (name : string) : bool :=
  existsb (fun e => String.eqb (fst e) name) data.

Definition fd_getAll (data : FormData) (name : string)
  : list FormDataEntryValue :=
  map snd (filter (fun e => String.eqb (fst e) name) data).

(** [a.slice(-1)]: the last element alone, nothing of an empty array. *)
Fixpoint slice_last {A : Type} (a : list A) : list A :=
  match a with
  | [] => []
  | [x] => [x]
  | _ :: t => slice_last t
  end.

(** [getPostTypesFromForm(form)], on the entry list of the form. *)
Definition getPostTypesFromForm (form : FormData)
  : list FormDataEntryValue :=
  let data := form in
  if fd_has data "post_type" then slice_last (fd_getAll data "post_type")
  else if fd_has data "post_type[]" then fd_getAll data "post_type[]"
  else [].

(* ------------------------------------------------------------------ *)
(** ** The current URL *)

(** A URL in parsed form: what precedes the query, the query as the list
    of pairs that [url.searchParams] exposes, and the fragment. *)
Record URL : Type := mkURL {
  url_base : string;
  searchParams : URLSearchParams;
  url_hash : string
}.

Definition with_searchParams (url : URL) (l : URLSearchParams) : URL :=
  mkURL (url_base url) l (url_hash url).

(** The [for ... of keys] loop: [delete] for each key under the prefix. *)
Definition delete_step (paramPrefix : string) (l : URLSearchParams)
    (key : string) : URLSearchParams :=
  if String.prefix paramPrefix key then usp_delete l key else l.

(** [params.forEach((value, key) => url.searchParams.set(key, value))]. *)
Definition set_all (params : URLSearchParams) (l : URLSearchParams)
  : URLSearchParams :=
  fold_left (fun acc kv => usp_set acc (fst kv) (snd kv)) params l.

(** What [getUrlWithParams] does to [url.searchParams]; [params] is [None]
    when the argument is not supplied. *)
Definition rewrite_params (paramPrefix : string)
    (params : option URLSearchParams) (l : URLSearchParams)
  : URLSearchParams :=
  let keys := usp_keys l in
  let l1 := fold_left (delete_step paramPrefix) keys l in
  match params with
  | Some ps => set_all ps l1
  | None => l1
  end.

Section Location.

(** [new URL(href)] and [url.toString()]. *)
Variable URL_parse : string -> URL.
Variable URL_toString : URL -> string.

(** [getUrlWithParams(paramPrefix, params)], with [window.location.href]
    as its first argument. *)
Definition getUrlWithParams (href : string) (paramPrefix : string)
    (params : option URLSearchParams) : string :=
  let url := URL_parse href in
  URL_toString
    (with_searchParams url
       (rewrite_params paramPrefix params (searchParams url))).

End Location.

(* ------------------------------------------------------------------ *)
(** ** Price formatting *)

(** The defaults of [formatPrice], before [...options]. *)
Definition price_defaults : JsObject :=
  [("style", JStr "currency"); ("currencyDisplay", JStr "narrowSymbol")].

Section Intl.

(** [new Intl.NumberFormat(locales, options).format(number)], with
    whatever it yields (a string or an exception) in [R]. *)
Variable R : Type.
Variable NumberFormat_format : string -> JsObject -> JsVal -> R.

(** [formatPrice(number, options)], with [navigator.language] as its
    first argument. *)
Definition formatPrice (navigator_language : string) (number : JsVal)
    (options : JsObject) : R :=
  NumberFormat_format navigator_language
    (obj_spread price_defaults options) number.

End Intl.

(* ------------------------------------------------------------------ *)
(** ** Sample collaborators

    Concrete instances of the parameters, for the examples below. They are
    not the repository's: [plain_toString] and [plain_parse] write and read
    URLs whose names and values need no escaping; [sample_sanitizeParam] and
    [sample_sanitizeArg] pass strings through, honour [allowedValues] and
    the default. *)

Fixpoint split (c : ascii) (s : string) : list string :=
  match s with
  | EmptyString => [EmptyString]
  | String a t =>
      if Ascii.eqb a c then EmptyString :: split c t
      else match split c t with
           | h :: r => String a h :: r
           | [] => [String a EmptyString]
           end
  end.

(** Cut at the first [c]: what precedes it and what follows. *)
Fixpoint cut (c : ascii) (s : string) : string * string :=
  match s with
  | EmptyString => (EmptyString, EmptyString)
  | String a t =>
      if Ascii.eqb a c then (EmptyString, t)
      else let (h, r) := cut c t in (String a h, r)
  end.

Definition plain_query (l : URLSearchParams) : string :=
  join "&" (map (fun kv => fst kv ++ "=" ++ snd kv) l).

Definition plain_toString (url : URL) : string :=
  url_base url
  ++ match searchParams url with
     | [] => ""
     | l => "?" ++ plain_query l
     end
  ++ match url_hash url with
     | EmptyString => ""
     | h => "#" ++ h
     end.

Definition plain_parse (href : string) : URL :=
  let (front, hash) := cut "#" href in
  let (base, query) := cut "?" front in
  mkURL base
    (map (cut "=")
       (filter (fun s => negb (String.eqb s "")) (split "&" query)))
    hash.

Definition str_in (s : string) (l : list JsVal) : bool :=
  existsb (fun v => match v with
                    | JStr s' => String.eqb s s'
                    | _ => false
                    end) l.

Definition sample_sanitizeParam (value : JsVal) (options : ArgSchema)
  : JsVal :=
  match value with
  | JStr s => if String.eqb s "" then JNull else JStr s
  | _ => JNull
  end.

Definition sample_sanitizeArg (value : JsVal) (options : ArgSchema)
    (useDefaults : bool) : JsVal :=
  let sanitized :=
    match value with
    | JStr s =>
        match allowedValues options with
        | Some allowed => if str_in s allowed then JStr s else JNull
        | None => JStr s
        end
    | _ => JNull
    end in
  match sanitized, useDefaults, default options with
  | JNull, true, Some d => d
  | _, _, _ => sanitized
  end.

Definition string_arg : ArgSchema := mkArgSchema "string" None None.

Definition sample_schema : Schema :=
  [("q", string_arg);
   ("orderby", mkArgSchema "string" (Some (JStr "relevance"))
                 (Some [JStr "relevance"; JStr "date"]))].

(* ------------------------------------------------------------------ *)
(** ** The vocabulary of the properties *)

(** Distinct keys, as a computation. *)
Fixpoint distinct (l : list string) : bool :=
  match l with
  | [] => true
  | k :: t => negb (existsb (String.eqb k) t) && distinct t
  end.

(** The parameter value a schema entry contributes: none for an argument
    that is [undefined], none when [sanitizeParam] answers [null], and the
    answer as a string otherwise. *)
Definition param_of (sanitizeParam : JsVal -> ArgSchema -> JsVal)
    (args : JsObject) (arg : string) (options : ArgSchema) : option string :=
  match obj_get args arg with
  | JUndefined => None
  | v => match sanitizeParam v options with
         | JNull => None
         | r => Some (ToString r)
         end
  end.

(** The pairs a schema entry contributes to the output. *)
Definition emit (sanitizeParam : JsVal -> ArgSchema -> JsVal)
    (args : JsObject) (prefix : string) (entry : string * ArgSchema)
  : URLSearchParams :=
  match param_of sanitizeParam args (fst entry) (snd entry) with
  | Some s => [(prefix ++ fst entry, s)]
  | None => []
  end.

(** What a key of the result holds for a sanitized value: nothing for
    [null], the value otherwise. *)
Definition present (value : JsVal) : option JsVal :=
  if not_null value then Some value else None.

(** The property a schema entry contributes to the arguments. *)
Definition emit_arg (sanitizeArg : JsVal -> ArgSchema -> bool -> JsVal)
    (urlParams : URLSearchParams) (prefix : string) (useDefaults : bool)
    (entry : string * ArgSchema) : JsObject :=
  match present (sanitizeArg (usp_get urlParams (prefix ++ fst entry))
                   (snd entry) useDefaults) with
  | Some v => [(fst entry, v)]
  | None => []
  end.

(** A value the sanitizers of a schema entry accept: it is a value proper,
    [sanitizeParam] emits a parameter for it, and [sanitizeArg] reads that
    parameter back as the value, without recourse to defaults. *)
Definition accepted (sanitizeParam : JsVal -> ArgSchema -> JsVal)
    (sanitizeArg : JsVal -> ArgSchema -> bool -> JsVal)
    (options : ArgSchema) (v : JsVal) : Prop :=
  v <> JUndefined /\ v <> JNull
  /\ sanitizeParam v options <> JNull
  /\ sanitizeArg (JStr (ToString (sanitizeParam v options))) options false = v.

(** The names a schema owns under a prefix. *)
Definition owned (schema : Schema) (prefix : string) (name : string) : bool :=
  existsb (fun arg => String.eqb (prefix ++ arg) name) (schema_keys schema).

(** The value of the last pair of a name, if any. *)
Definition usp_last (l : URLSearchParams) (name : string) : option string :=
  match rev (usp_getAll l name) with
  | v :: _ => Some v
  | [] => None
  end.

(** The pairs whose name does not start with the prefix. *)
Definition strip (paramPrefix : string) (l : URLSearchParams)
  : URLSearchParams :=
  filter (fun e => negb (String.prefix paramPrefix (fst e))) l.

(** A [sanitizeArg] declared with a default parameter, [value = 'any']:
    JavaScript fills the default in for [undefined], not for [null]. *)
Definition defaulting_sanitizeArg (value : JsVal) (options : ArgSchema)
    (useDefaults : bool) : JsVal :=
  match value with
  | JUndefined => JStr "any"
  | v => v
  end.

(** A formatter that reports the locale and the style it is built with. *)
Definition probe_format (locale : string) (options : JsObject)
    (number : JsVal) : string * JsVal :=
  (locale, obj_get options "style").

(* ------------------------------------------------------------------ *)
(** ** Examples *)

(** The example of the specification: schema [{ q: {type:'string'} }],
    prefix ["s_"], args [{ q: "chairs" }]. *)
Example serialize_chairs :
  getUrlParamsFromArgs sample_sanitizeParam
    [("q", JStr "chairs")] [("q", string_arg)] "s_"
  = [("s_q", "chairs")].
Proof. reflexivity. Qed.

Example deserialize_chairs :
  getArgsFromUrlParams sample_sanitizeArg
    [("s_q", "chairs")] [("q", string_arg)] "s_" true
  = [("q", JStr "chairs")].
Proof. reflexivity. Qed.

Example url_chairs :
  getUrlWithParams plain_parse plain_toString
    "https://example.com/?s_q=tables&page=2#top" "s_"
    (Some [("s_q", "chairs")])
  = "https://example.com/?page=2&s_q=chairs#top".
Proof. reflexivity. Qed.

Example url_strip :
  getUrlWithParams plain_parse plain_toString
    "https://example.com/?s_q=tables&page=2&s_x=1" "s_" None
  = "https://example.com/?page=2".
Proof. reflexivity. Qed.

Example deserialize_defaults :
  getArgsFromUrlParams sample_sanitizeArg [("page", "2")] sample_schema "" true
  = [("orderby", JStr "relevance")].
Proof. reflexivity. Qed.

Example post_type_precedence :
  getPostTypesFromForm
    [("post_type[]", FString "Y"); ("post_type", FString "X");
     ("post_type[]", FString "Z")]
  = [FString "X"].
Proof. reflexivity. Qed.

Example ToString_array :
  ToString (JArr [JNum 3; JNull; JStr "a"; JNum (-12)]) = "3,,a,-12".
Proof. reflexivity. Qed.

(* ------------------------------------------------------------------ *)
(** ** Strings and keys *)

Lemma append_inj_r (p a b : string) : p ++ a = p ++ b -> a = b.
Proof.
  induction p as [| c p IH]; simpl; intros H.
  - exact H.
  - injection H as H. auto.
Qed.

Lemma prefix_append (p s : string) : String.prefix p (p ++ s) = true.
Proof.
  induction p as [| c p IH]; simpl.
  - destruct s; reflexivity.
  - destruct (ascii_dec c c) as [_ | n]; [exact IH | contradiction].
Qed.

Lemma existsb_eqb_In (k : string) (l : list string) :
  existsb (String.eqb k) l = true <-> In k l.
Proof.
  rewrite existsb_exists. split.
  - intros [x [Hin Heq]]. apply String.eqb_eq in Heq. now subst.
  - intros Hin. exists k. split; [assumption | apply String.eqb_refl].
Qed.

Lemma distinct_NoDup (l : list string) : distinct l = true <-> NoDup l.
Proof.
  induction l as [| k t IH]; simpl.
  - split; [constructor | reflexivity].
  - rewrite andb_true_iff, negb_true_iff, IH. split.
    + intros [Hn Hd]. constructor; [| assumption].
      rewrite <- existsb_eqb_In. now rewrite Hn.
    + intros H. inversion H as [| ? ? Hn Hd]; subst. split; [| assumption].
      destruct (existsb (String.eqb k) t) eqn:E; [| reflexivity].
      apply existsb_eqb_In in E. contradiction.
Qed.

(* ------------------------------------------------------------------ *)
(** ** Facts about URLSearchParams *)

Section UspFacts.

Implicit Types (l : URLSearchParams) (name value : string).

Lemma usp_getAll_app l1 l2 name :
  usp_getAll (l1 ++ l2)%list name
  = (usp_getAll l1 name ++ usp_getAll l2 name)%list.
Proof. unfold usp_getAll. now rewrite filter_app, map_app. Qed.

Lemma usp_getAll_absent l name :
  ~ In name (usp_keys l) -> usp_getAll l name = [].
Proof.
  unfold usp_getAll, usp_keys.
  induction l as [| [k v] t IH]; simpl; intros H; [reflexivity |].
  destruct (String.eqb_spec k name) as [-> | Hne].
  - exfalso. apply H. now left.
  - apply IH. intros Hin. apply H. now right.
Qed.

Lemma usp_has_keys l name :
  usp_has l name = true <-> In name (usp_keys l).
Proof.
  unfold usp_has, usp_keys. rewrite existsb_exists, in_map_iff. split.
  - intros [e [Hin He]]. apply String.eqb_eq in He. now exists e.
  - intros [e [He Hin]]. exists e. split; [assumption |].
    now apply String.eqb_eq.
Qed.

Lemma usp_delete_keys l name k :
  In k (usp_keys (usp_delete l name)) <-> In k (usp_keys l) /\ k <> name.
Proof.
  unfold usp_keys, usp_delete. rewrite !in_map_iff. split.
  - intros [e [He Hin]]. apply filter_In in Hin as [Hin Hb].
    apply negb_true_iff, String.eqb_neq in Hb. subst k.
    split; [now exists e | assumption].
  - intros [[e [He Hin]] Hne]. exists e. split; [assumption |].
    apply filter_In. split; [assumption |].
    apply negb_true_iff, String.eqb_neq. now rewrite He.
Qed.

Lemma usp_delete_NoDup l name :
  NoDup (usp_keys l) -> NoDup (usp_keys (usp_delete l name)).
Proof.
  unfold usp_keys, usp_delete.
  induction l as [| [k v] t IH]; simpl; intros H; [constructor |].
  inversion H as [| ? ? Hn Hd]; subst.
  destruct (String.eqb k name); simpl; [auto |].
  constructor; [| auto].
  intros Hin. apply Hn.
  apply (usp_delete_keys t name k) in Hin. tauto.
Qed.

Lemma usp_getAll_delete_other l name k :
  k <> name -> usp_getAll (usp_delete l name) k = usp_getAll l k.
Proof.
  intros Hne. unfold usp_getAll, usp_delete.
  induction l as [| [k' v] t IH]; simpl; [reflexivity |].
  destruct (String.eqb_spec k' name) as [-> | Hn]; simpl.
  - destruct (String.eqb_spec name k) as [E | _];
      [now subst | exact IH].
  - destruct (String.eqb k' k); simpl; now rewrite IH.
Qed.

Lemma usp_getAll_delete_same l name :
  usp_getAll (usp_delete l name) name = [].
Proof.
  apply usp_getAll_absent. rewrite usp_delete_keys. tauto.
Qed.

(** A name that is not there yet is appended. *)
Lemma usp_set_fresh l name value :
  ~ In name (usp_keys l) -> usp_set l name value = (l ++ [(name, value)])%list.
Proof.
  unfold usp_keys.
  induction l as [| [k v] t IH]; simpl; intros H; [reflexivity |].
  destruct (String.eqb_spec k name) as [-> | Hne].
  - exfalso. apply H. now left.
  - f_equal. apply IH. intros Hin. apply H. now right.
Qed.

(** After [set], the name has exactly the value set. *)
Lemma usp_getAll_set_same l name value :
  usp_getAll (usp_set l name value) name = [value].
Proof.
  induction l as [| [k v] t IH]; simpl.
  - unfold usp_getAll. simpl. now rewrite String.eqb_refl.
  - destruct (String.eqb_spec k name) as [-> | Hne].
    + change (usp_getAll ((name, value) :: usp_delete t name) name)
        with (usp_getAll ([(name, value)] ++ usp_delete t name)%list name).
      rewrite usp_getAll_app, usp_getAll_delete_same.
      unfold usp_getAll. simpl. now rewrite String.eqb_refl.
    + change (usp_getAll ((k, v) :: usp_set t name value) name)
        with (usp_getAll ([(k, v)] ++ usp_set t name value)%list name).
      rewrite usp_getAll_app, IH.
      unfold usp_getAll. simpl.
      destruct (String.eqb_spec k name); [contradiction | reflexivity].
Qed.

(** [set] leaves the values of every other name as they are. *)
Lemma usp_getAll_set_other l name value k :
  k <> name -> usp_getAll (usp_set l name value) k = usp_getAll l k.
Proof.
  intros Hne.
  induction l as [| [k' v] t IH]; simpl.
  - unfold usp_getAll. simpl.
    destruct (String.eqb_spec name k); [now subst | reflexivity].
  - destruct (String.eqb_spec k' name) as [-> | Hn].
    + change (usp_getAll ((name, value) :: usp_delete t name) k)
        with (usp_getAll ([(name, value)] ++ usp_delete t name)%list k).
      change (usp_getAll ((name, v) :: t) k)
        with (usp_getAll ([(name, v)] ++ t)%list k).
      rewrite !usp_getAll_app, usp_getAll_delete_other by assumption.
      unfold usp_getAll. simpl.
      destruct (String.eqb_spec name k); [now subst | reflexivity].
    + change (usp_getAll ((k', v) :: usp_set t name value) k)
        with (usp_getAll ([(k', v)] ++ usp_set t name value)%list k).
      change (usp_getAll ((k', v) :: t) k)
        with (usp_getAll ([(k', v)] ++ t)%list k).
      now rewrite !usp_getAll_app, IH.
Qed.

Lemma usp_set_keys l name value k :
  In k (usp_keys (usp_set l name value)) <-> In k (usp_keys l) \/ k = name.
Proof.
  induction l as [| [k' v] t IH]; simpl.
  - intuition.
  - destruct (String.eqb_spec k' name) as [-> | Hn]; simpl.
    + fold (usp_keys (usp_delete t name)). rewrite usp_delete_keys.
      fold (usp_keys t).
      destruct (string_dec k name) as [-> | Hk]; intuition.
    + fold (usp_keys (usp_set t name value)) (usp_keys t).
      rewrite IH. intuition.
Qed.

(** [set] never makes a name occur twice. *)
Lemma usp_set_NoDup l name value :
  NoDup (usp_keys l) -> NoDup (usp_keys (usp_set l name value)).
Proof.
  induction l as [| [k v] t IH]; simpl; intros H.
  - constructor; [intros [] | constructor].
  - inversion H as [| ? ? Hn Hd]; subst.
    destruct (String.eqb_spec k name) as [-> | Hne]; simpl.
    + constructor.
      * fold (usp_keys (usp_delete t name)). rewrite usp_delete_keys. tauto.
      * now apply usp_delete_NoDup.
    + constructor; [| now apply IH].
      fold (usp_keys (usp_set t name value)). rewrite usp_set_keys.
      intros [Hin | ->]; [now apply Hn | now apply Hne].
Qed.

End UspFacts.

(* ------------------------------------------------------------------ *)
(** ** Serialization: [getUrlParamsFromArgs] *)

Section SerializeFacts.

Variable sanitizeParam : JsVal -> ArgSchema -> JsVal.
Variables (args : JsObject) (prefix : string).

Local Abbreviation step := (param_step sanitizeParam args prefix).

Lemma param_step_param_of l arg options :
  step l (arg, options)
  = match param_of sanitizeParam args arg options with
    | Some s => usp_set l (prefix ++ arg) s
    | None => l
    end.
Proof.
  unfold param_step, param_of.
  destruct (obj_get args arg); simpl; try reflexivity;
    match goal with
    | |- context [sanitizeParam ?v options] =>
        destruct (sanitizeParam v options); reflexivity
    end.
Qed.

(** No name occurs twice in the output, whatever the schema list. *)
Lemma serialize_fold_NoDup schema acc :
  NoDup (usp_keys acc) -> NoDup (usp_keys (fold_left step schema acc)).
Proof.
  revert acc.
  induction schema as [| [arg options] rest IH]; cbn [fold_left];
    intros acc H.
  - exact H.
  - apply IH. rewrite param_step_param_of.
    destruct (param_of sanitizeParam args arg options);
      [now apply usp_set_NoDup | exact H].
Qed.

(** With distinct schema keys, each step appends. *)
Lemma serialize_fold_app schema acc :
  NoDup (schema_keys schema) ->
  (forall arg, In arg (schema_keys schema) ->
               ~ In (prefix ++ arg) (usp_keys acc)) ->
  fold_left step schema acc
  = (acc ++ flat_map (emit sanitizeParam args prefix) schema)%list.
Proof.
  revert acc.
  induction schema as [| [arg options] rest IH];
    cbn [fold_left flat_map]; intros acc Hnd Hfresh.
  - now rewrite app_nil_r.
  - inversion Hnd as [| ? ? Hn Hd]; subst.
    rewrite param_step_param_of. unfold emit at 1. cbn [fst snd].
    destruct (param_of sanitizeParam args arg options) as [s |];
      cbn [app].
    + rewrite usp_set_fresh by (apply Hfresh; now left).
      rewrite IH; [now rewrite <- app_assoc | assumption |].
      intros a Ha Hin.
      unfold usp_keys in Hin. rewrite map_app in Hin.
      apply in_app_or in Hin as [Hin | Hin].
      * apply (Hfresh a); [now right | exact Hin].
      * simpl in Hin. destruct Hin as [E | []].
        apply append_inj_r in E. subst a. contradiction.
    + apply IH; [assumption |].
      intros a Ha. apply Hfresh. now right.
Qed.

Lemma serialize_flat_map schema :
  NoDup (schema_keys schema) ->
  getUrlParamsFromArgs sanitizeParam args schema prefix
  = flat_map (emit sanitizeParam args prefix) schema.
Proof.
  intros Hnd. unfold getUrlParamsFromArgs.
  now rewrite (serialize_fold_app schema [] Hnd) by (intros ? ? []).
Qed.

Lemma emit_keys schema name :
  In name (usp_keys (flat_map (emit sanitizeParam args prefix) schema)) ->
  exists arg options,
    In (arg, options) schema /\ name = prefix ++ arg
    /\ param_of sanitizeParam args arg options <> None.
Proof.
  unfold usp_keys. rewrite in_map_iff.
  intros [[k v] [Hk Hin]]. simpl in Hk. subst k.
  apply in_flat_map in Hin as [[arg options] [Hin He]].
  exists arg, options. unfold emit in He. cbn [fst snd] in He.
  destruct (param_of sanitizeParam args arg options) as [s |];
    [| contradiction].
  destruct He as [E | []]. injection E as E _.
  split; [assumption |]. split; [now symmetry | discriminate].
Qed.

(** The values of [prefix + arg] in the output of distinct schema keys. *)
Lemma emit_getAll schema arg options :
  NoDup (schema_keys schema) ->
  In (arg, options) schema ->
  usp_getAll (flat_map (emit sanitizeParam args prefix) schema)
    (prefix ++ arg)
  = match param_of sanitizeParam args arg options with
    | Some s => [s]
    | None => []
    end.
Proof.
  induction schema as [| [a o] rest IH]; simpl; intros Hnd Hin;
    [contradiction |].
  inversion Hnd as [| ? ? Hn Hd]; subst.
  rewrite usp_getAll_app.
  destruct Hin as [E | Hin].
  - injection E as -> ->.
    rewrite (usp_getAll_absent (flat_map _ rest)).
    + rewrite app_nil_r. unfold emit. cbn [fst snd].
      destruct (param_of sanitizeParam args arg options); [| reflexivity].
      unfold usp_getAll. simpl. now rewrite String.eqb_refl.
    + intros Hk. apply emit_keys in Hk as [a' [o' [Hin' [E _]]]].
      apply append_inj_r in E. subst a'.
      apply Hn. unfold schema_keys. apply in_map_iff.
      now exists (arg, o').
  - rewrite (IH Hd Hin).
    assert (Hne : a <> arg).
    { intros ->. apply Hn. unfold schema_keys. apply in_map_iff.
      now exists (arg, options). }
    unfold emit at 1. cbn [fst snd].
    destruct (param_of sanitizeParam args a o); [| reflexivity].
    unfold usp_getAll. simpl.
    destruct (String.eqb_spec (prefix ++ a) (prefix ++ arg)) as [E | _];
      [| reflexivity].
    apply append_inj_r in E. contradiction.
Qed.

End SerializeFacts.

Lemma param_of_ext (sp sp' : JsVal -> ArgSchema -> JsVal)
    (args args' : JsObject) (arg : string) (options : ArgSchema) :
  (forall v o, v <> JUndefined -> sp' v o = sp v o) ->
  obj_get args' arg = obj_get args arg ->
  param_of sp' args' arg options = param_of sp args arg options.
Proof.
  intros Hsp Hget. unfold param_of. rewrite Hget.
  destruct (obj_get args arg) eqn:E; try reflexivity;
    rewrite Hsp by discriminate; reflexivity.
Qed.

(** The output depends on the sanitizer at defined values only, and on the
    arguments at the schema's keys only. *)
Lemma serialize_ext (sp sp' : JsVal -> ArgSchema -> JsVal)
    (args args' : JsObject) (schema : Schema) (prefix : string) :
  (forall v o, v <> JUndefined -> sp' v o = sp v o) ->
  (forall arg, In arg (schema_keys schema) ->
               obj_get args' arg = obj_get args arg) ->
  getUrlParamsFromArgs sp' args' schema prefix
  = getUrlParamsFromArgs sp args schema prefix.
Proof.
  intros Hsp. unfold getUrlParamsFromArgs. generalize (@nil (string * string)).
  induction schema as [| [arg options] rest IH]; cbn [fold_left];
    intros acc Hget; [reflexivity |].
  rewrite !param_step_param_of.
  rewrite (param_of_ext sp sp' args args') by (auto; apply Hget; now left).
  apply IH. intros a Ha. apply Hget. now right.
Qed.

(* ------------------------------------------------------------------ *)
(** ** Facts about objects *)

Section ObjFacts.

Implicit Types (o : JsObject) (k : string) (v : JsVal).

Lemma obj_lookup_absent o k : ~ In k (obj_keys o) -> obj_lookup o k = None.
Proof.
  unfold obj_keys.
  induction o as [| [k' v'] t IH]; simpl; intros H; [reflexivity |].
  destruct (String.eqb_spec k' k) as [-> | Hne].
  - exfalso. apply H. now left.
  - apply IH. intros Hin. apply H. now right.
Qed.

Lemma obj_lookup_set o k v k0 :
  obj_lookup (obj_set o k v) k0
  = if String.eqb k k0 then Some v else obj_lookup o k0.
Proof.
  induction o as [| [k' v'] t IH]; simpl.
  - reflexivity.
  - destruct (String.eqb_spec k' k) as [-> | Hne]; simpl.
    + destruct (String.eqb k k0); reflexivity.
    + rewrite IH. destruct (String.eqb_spec k' k0) as [-> | Hn0];
        [| reflexivity].
      destruct (String.eqb_spec k k0); [now subst | reflexivity].
Qed.

Lemma obj_set_keys o k v k0 :
  In k0 (obj_keys (obj_set o k v)) <-> In k0 (obj_keys o) \/ k0 = k.
Proof.
  unfold obj_keys.
  induction o as [| [k' v'] t IH]; simpl.
  - intuition.
  - destruct (String.eqb_spec k' k) as [-> | Hne]; simpl.
    + intuition.
    + rewrite IH. intuition.
Qed.

(** [{ ...a, ...b }]: the properties of [b] win. *)
Lemma obj_lookup_spread a b k :
  NoDup (obj_keys b) ->
  obj_lookup (obj_spread a b) k
  = match obj_lookup b k with
    | Some v => Some v
    | None => obj_lookup a k
    end.
Proof.
  unfold obj_spread. revert a.
  induction b as [| [k' v'] t IH]; cbn [fold_left]; intros a Hnd.
  - reflexivity.
  - inversion Hnd as [| ? ? Hn Hd]; subst.
    rewrite (IH _ Hd). cbn [fst snd obj_lookup].
    rewrite obj_lookup_set.
    destruct (String.eqb_spec k' k) as [-> | Hne].
    + now rewrite (obj_lookup_absent t k Hn).
    + reflexivity.
Qed.

(** Objects that list the same properties in another order read alike. *)
Lemma obj_lookup_Permutation o o' k :
  NoDup (obj_keys o) -> Permutation o o' ->
  obj_lookup o' k = obj_lookup o k.
Proof.
  intros Hnd Hp. induction Hp as [| [k1 v1] l l' Hp IH
                                  | [k1 v1] [k2 v2] l
                                  | l l' l'' Hp1 IH1 Hp2 IH2].
  - reflexivity.
  - simpl. inversion Hnd; subst. now rewrite IH.
  - simpl. destruct (String.eqb_spec k2 k) as [-> | H2];
      destruct (String.eqb_spec k1 k) as [-> | H1]; try reflexivity.
    exfalso. inversion Hnd as [| ? ? Hn _]; subst. apply Hn. now left.
  - rewrite IH2, IH1; [reflexivity | assumption |].
    unfold obj_keys. apply (Permutation_NoDup (l := map fst l));
      [now apply Permutation_map | assumption].
Qed.

End ObjFacts.

(* ------------------------------------------------------------------ *)
(** ** Deserialization: [getArgsFromUrlParams] *)

(** [get] answers a string or [null], never [undefined]. *)
Lemma usp_get_cases (l : URLSearchParams) (name : string) :
  (exists s rest, usp_getAll l name = s :: rest /\ usp_get l name = JStr s)
  \/ (usp_getAll l name = [] /\ usp_get l name = JNull).
Proof.
  unfold usp_get. destruct (usp_getAll l name) as [| s rest].
  - right. now split.
  - left. now exists s, rest.
Qed.

Lemma typeof_usp_get (l : URLSearchParams) (name : string) :
  String.eqb (typeof (usp_get l name)) "undefined" = false.
Proof.
  destruct (usp_get_cases l name) as [[s [rest [_ ->]]] | [_ ->]];
    reflexivity.
Qed.

Section DeserializeFacts.

Variable sanitizeArg : JsVal -> ArgSchema -> bool -> JsVal.
Variables (urlParams : URLSearchParams) (prefix : string).
Variable useDefaults : bool.

Local Abbreviation step :=
  (arg_step sanitizeArg urlParams prefix useDefaults).
Local Abbreviation contribution :=
  (emit_arg sanitizeArg urlParams prefix useDefaults).

Lemma arg_step_present args arg options :
  step args (arg, options)
  = match present (sanitizeArg (usp_get urlParams (prefix ++ arg))
                     options useDefaults) with
    | Some v => obj_set args arg v
    | None => args
    end.
Proof.
  unfold arg_step, present. rewrite typeof_usp_get. simpl.
  destruct (not_null _); reflexivity.
Qed.

Lemma obj_set_fresh (o : JsObject) k v :
  ~ In k (obj_keys o) -> obj_set o k v = (o ++ [(k, v)])%list.
Proof.
  unfold obj_keys.
  induction o as [| [k' v'] t IH]; simpl; intros H; [reflexivity |].
  destruct (String.eqb_spec k' k) as [-> | Hne].
  - exfalso. apply H. now left.
  - f_equal. apply IH. intros Hin. apply H. now right.
Qed.

Lemma deserialize_fold_keys schema acc k :
  In k (obj_keys (fold_left step schema acc)) ->
  In k (obj_keys acc) \/ In k (schema_keys schema).
Proof.
  revert acc.
  induction schema as [| [arg options] rest IH]; cbn [fold_left];
    intros acc H; [now left |].
  apply IH in H as [H | H]; [| right; now right].
  rewrite arg_step_present in H.
  destruct (present _); [| now left].
  apply obj_set_keys in H as [H | ->]; [now left | right; now left].
Qed.

(** The result reads, at a schema key, what the last entry of that key
    contributes; with distinct keys there is one such entry. *)
Lemma deserialize_fold_lookup schema acc arg options :
  NoDup (schema_keys schema) ->
  In (arg, options) schema ->
  ~ In arg (obj_keys acc) ->
  obj_lookup (fold_left step schema acc) arg
  = present (sanitizeArg (usp_get urlParams (prefix ++ arg))
               options useDefaults).
Proof.
  revert acc.
  induction schema as [| [a o] rest IH]; cbn [fold_left];
    intros acc Hnd Hin Hacc; [contradiction |].
  inversion Hnd as [| ? ? Hn Hd]; subst.
  destruct Hin as [E | Hin].
  - injection E as -> ->.
    rewrite arg_step_present.
    set (r := present _).
    assert (Hrest : forall acc',
               obj_lookup (fold_left step rest acc') arg
               = obj_lookup acc' arg).
    { clear - Hn. induction rest as [| [a' o'] rest IH]; cbn [fold_left];
        intros acc'; [reflexivity |].
      rewrite IH by (intros H; apply Hn; now right).
      rewrite arg_step_present. destruct (present _); [| reflexivity].
      rewrite obj_lookup_set.
      destruct (String.eqb_spec a' arg) as [-> | _]; [| reflexivity].
      exfalso. apply Hn. now left. }
    rewrite Hrest. destruct r as [v |].
    + rewrite obj_lookup_set. now rewrite String.eqb_refl.
    + now apply obj_lookup_absent.
  - apply IH; [assumption | assumption |].
    assert (Hne : a <> arg).
    { intros ->. apply Hn. unfold schema_keys. apply in_map_iff.
      now exists (arg, options). }
    rewrite arg_step_present.
    destruct (present (sanitizeArg (usp_get urlParams (prefix ++ a)) o
                         useDefaults)); [| assumption].
    rewrite obj_set_keys.
    intros [H | H]; [now apply Hacc | apply Hne; now symmetry].
Qed.

(** With distinct schema keys the result lists the contributions in
    schema order. *)
Lemma deserialize_fold_app schema acc :
  NoDup (schema_keys schema) ->
  (forall arg, In arg (schema_keys schema) -> ~ In arg (obj_keys acc)) ->
  fold_left step schema acc = (acc ++ flat_map contribution schema)%list.
Proof.
  revert acc.
  induction schema as [| [arg options] rest IH];
    cbn [fold_left flat_map]; intros acc Hnd Hfresh.
  - now rewrite app_nil_r.
  - inversion Hnd as [| ? ? Hn Hd]; subst.
    rewrite arg_step_present. unfold emit_arg at 1. cbn [fst snd].
    destruct (present _) as [v |]; cbn [app].
    + rewrite obj_set_fresh by (apply Hfresh; now left).
      rewrite IH; [now rewrite <- app_assoc | assumption |].
      intros a Ha Hin.
      unfold obj_keys in Hin. rewrite map_app in Hin.
      apply in_app_or in Hin as [Hin | Hin].
      * apply (Hfresh a); [now right | exact Hin].
      * simpl in Hin. destruct Hin as [E | []]. subst a. contradiction.
    + apply IH; [assumption |].
      intros a Ha. apply Hfresh. now right.
Qed.

End DeserializeFacts.

(** The result depends on the parameters through [get] at the names the
    schema owns under the prefix, and on nothing else. *)
Lemma deserialize_ext (sa : JsVal -> ArgSchema -> bool -> JsVal)
    (p1 p2 : URLSearchParams) (schema : Schema) (prefix : string)
    (useDefaults : bool) :
  (forall arg, In arg (schema_keys schema) ->
               usp_get p1 (prefix ++ arg) = usp_get p2 (prefix ++ arg)) ->
  getArgsFromUrlParams sa p1 schema prefix useDefaults
  = getArgsFromUrlParams sa p2 schema prefix useDefaults.
Proof.
  unfold getArgsFromUrlParams. generalize (@nil (string * JsVal)).
  induction schema as [| [arg options] rest IH]; cbn [fold_left];
    intros acc Hget; [reflexivity |].
  rewrite !arg_step_present, (Hget arg) by now left.
  apply IH. intros a Ha. apply Hget. now right.
Qed.

Lemma owned_spec (schema : Schema) (prefix name : string) :
  owned schema prefix name = true
  <-> exists arg, In arg (schema_keys schema) /\ name = prefix ++ arg.
Proof.
  unfold owned. rewrite existsb_exists. split.
  - intros [arg [Hin E]]. apply String.eqb_eq in E. now exists arg.
  - intros [arg [Hin ->]]. exists arg. split; [assumption |].
    apply String.eqb_refl.
Qed.

(** Dropping the pairs of other names changes no [getAll] of a kept name. *)
Lemma usp_getAll_filter (keep : string -> bool) (l : URLSearchParams)
    (name : string) :
  keep name = true ->
  usp_getAll (filter (fun e => keep (fst e)) l) name = usp_getAll l name.
Proof.
  intros Hk. unfold usp_getAll.
  induction l as [| [k v] t IH]; simpl; [reflexivity |].
  destruct (keep k) eqn:Ek; simpl.
  - destruct (String.eqb k name); simpl; now rewrite IH.
  - destruct (String.eqb_spec k name) as [-> | _]; [congruence | exact IH].
Qed.

(* ------------------------------------------------------------------ *)
(** ** The URL rewrite: [getUrlWithParams] *)

Section RewriteFacts.

Variable paramPrefix : string.

Implicit Types (l ps : URLSearchParams) (keys : list string).

Lemma filter_filter {A : Type} (f g : A -> bool) (xs : list A) :
  filter f (filter g xs) = filter (fun x => g x && f x) xs.
Proof.
  induction xs as [| x t IH]; simpl; [reflexivity |].
  destruct (g x); simpl; [destruct (f x) |]; now rewrite IH.
Qed.

(** The loop over a snapshot of keys removes the pairs whose name is in
    the snapshot and starts with the prefix. *)
Lemma delete_loop keys l :
  fold_left (delete_step paramPrefix) keys l
  = filter (fun e => negb (String.prefix paramPrefix (fst e)
                           && existsb (String.eqb (fst e)) keys)) l.
Proof.
  revert l. induction keys as [| k ks IH]; cbn [fold_left]; intros l.
  - symmetry. apply forallb_filter_id. apply forallb_forall.
    intros e _. simpl. now rewrite andb_false_r.
  - rewrite IH. unfold delete_step.
    destruct (String.prefix paramPrefix k) eqn:Ep.
    + unfold usp_delete. rewrite filter_filter.
      apply filter_ext. intros [k' v]. simpl.
      destruct (String.eqb_spec k' k) as [-> | Hne]; simpl.
      * now rewrite Ep.
      * reflexivity.
    + apply filter_ext. intros [k' v]. simpl.
      destruct (String.eqb_spec k' k) as [-> | Hne]; simpl.
      * now rewrite Ep.
      * reflexivity.
Qed.

(** Over the keys of the list itself, the loop strips the prefix. *)
Lemma delete_loop_strip l :
  fold_left (delete_step paramPrefix) (usp_keys l) l = strip paramPrefix l.
Proof.
  rewrite delete_loop. unfold strip. apply filter_ext_in.
  intros e Hin.
  assert (H : existsb (String.eqb (fst e)) (usp_keys l) = true).
  { apply existsb_eqb_In. unfold usp_keys. now apply in_map. }
  now rewrite H, andb_true_r.
Qed.

Lemma rewrite_params_strip params l :
  rewrite_params paramPrefix params l
  = match params with
    | Some ps => set_all ps (strip paramPrefix l)
    | None => strip paramPrefix l
    end.
Proof. unfold rewrite_params. now rewrite delete_loop_strip. Qed.

Lemma strip_keys l k :
  In k (usp_keys (strip paramPrefix l))
  <-> In k (usp_keys l) /\ String.prefix paramPrefix k = false.
Proof.
  unfold usp_keys, strip. rewrite !in_map_iff. split.
  - intros [e [He Hin]]. apply filter_In in Hin as [Hin Hb].
    apply negb_true_iff in Hb. subst k. split; [now exists e | assumption].
  - intros [[e [He Hin]] Hp]. exists e. split; [assumption |].
    apply filter_In. split; [assumption |].
    apply negb_true_iff. now rewrite He.
Qed.

Lemma strip_getAll_kept l k :
  String.prefix paramPrefix k = false ->
  usp_getAll (strip paramPrefix l) k = usp_getAll l k.
Proof.
  intros Hp. unfold strip.
  apply (usp_getAll_filter
           (fun name => negb (String.prefix paramPrefix name))).
  now rewrite Hp.
Qed.

Lemma strip_getAll_gone l k :
  String.prefix paramPrefix k = true ->
  usp_getAll (strip paramPrefix l) k = [].
Proof.
  intros Hp. apply usp_getAll_absent. rewrite strip_keys.
  intros [_ H]. congruence.
Qed.

Lemma strip_app l1 l2 :
  strip paramPrefix (l1 ++ l2)%list
  = (strip paramPrefix l1 ++ strip paramPrefix l2)%list.
Proof. apply filter_app. Qed.

Lemma strip_idem l :
  strip paramPrefix (strip paramPrefix l) = strip paramPrefix l.
Proof.
  unfold strip. rewrite filter_filter. apply filter_ext.
  intros e. now rewrite andb_diag.
Qed.

Lemma strip_all l :
  (forall k, In k (usp_keys l) -> String.prefix paramPrefix k = true) ->
  strip paramPrefix l = [].
Proof.
  unfold strip, usp_keys.
  induction l as [| [k v] t IH]; simpl; intros H; [reflexivity |].
  rewrite (H k) by now left. simpl. apply IH. intros k' Hin.
  apply H. now right.
Qed.

Lemma set_all_keys ps l k :
  In k (usp_keys (set_all ps l)) <-> In k (usp_keys l) \/ In k (usp_keys ps).
Proof.
  unfold set_all. revert l.
  induction ps as [| [n v] t IH]; cbn [fold_left]; intros l.
  - simpl. tauto.
  - rewrite IH, usp_set_keys. simpl. intuition.
Qed.

(** [set] does not touch a front that does not hold the name. *)
Lemma usp_set_app_fresh l1 l2 name value :
  ~ In name (usp_keys l1) ->
  usp_set (l1 ++ l2)%list name value = (l1 ++ usp_set l2 name value)%list.
Proof.
  unfold usp_keys.
  induction l1 as [| [k v] t IH]; simpl; intros H; [reflexivity |].
  destruct (String.eqb_spec k name) as [-> | Hne].
  - exfalso. apply H. now left.
  - f_equal. apply IH. intros Hin. apply H. now right.
Qed.

Lemma set_all_app_fresh ps l1 l2 :
  (forall k, In k (usp_keys ps) -> ~ In k (usp_keys l1)) ->
  set_all ps (l1 ++ l2)%list = (l1 ++ set_all ps l2)%list.
Proof.
  unfold set_all. revert l2.
  induction ps as [| [n v] t IH]; cbn [fold_left]; intros l2 H;
    [reflexivity |].
  cbn [fst snd]. rewrite usp_set_app_fresh by (apply H; now left).
  apply IH. intros k Hk. apply H. now right.
Qed.

(** The values of a name after the pairs of [ps] are set. *)
Lemma set_all_getAll ps l k :
  usp_getAll (set_all ps l) k
  = match usp_last ps k with
    | Some v => [v]
    | None => usp_getAll l k
    end.
Proof.
  unfold set_all. revert l.
  induction ps as [| [n v] t IH]; cbn [fold_left]; intros l.
  - reflexivity.
  - rewrite IH. cbn [fst snd]. unfold usp_last.
    change ((n, v) :: t) with ([(n, v)] ++ t)%list.
    rewrite usp_getAll_app, rev_app_distr.
    destruct (rev (usp_getAll t k)) as [| w ws]; [| reflexivity].
    cbn [app]. unfold usp_getAll at 2. simpl.
    destruct (String.eqb_spec n k) as [-> | Hne]; simpl.
    + apply usp_getAll_set_same.
    + apply usp_getAll_set_other. congruence.
Qed.

Lemma usp_last_absent ps k : ~ In k (usp_keys ps) -> usp_last ps k = None.
Proof.
  intros H. unfold usp_last. now rewrite usp_getAll_absent.
Qed.

(** Rewriting what has been rewritten with the same pairs, all of them
    under the prefix, changes nothing. *)
Lemma rewrite_params_idem params l :
  (forall ps, params = Some ps ->
     forall k, In k (usp_keys ps) -> String.prefix paramPrefix k = true) ->
  rewrite_params paramPrefix params (rewrite_params paramPrefix params l)
  = rewrite_params paramPrefix params l.
Proof.
  intros Hp. rewrite !rewrite_params_strip.
  destruct params as [ps |]; [| apply strip_idem].
  specialize (Hp ps eq_refl).
  assert (Hfresh : forall k, In k (usp_keys ps) ->
                             ~ In k (usp_keys (strip paramPrefix l))).
  { intros k Hk. rewrite strip_keys. intros [_ H].
    rewrite (Hp k Hk) in H. discriminate. }
  assert (E : set_all ps (strip paramPrefix l)
              = (strip paramPrefix l ++ set_all ps [])%list).
  { rewrite <- (app_nil_r (strip paramPrefix l)) at 1.
    now apply set_all_app_fresh. }
  rewrite E at 1. rewrite strip_app, strip_idem.
  rewrite (strip_all (set_all ps [])).
  - now rewrite app_nil_r.
  - intros k Hk. apply set_all_keys in Hk as [[] | Hk]. now apply Hp.
Qed.

End RewriteFacts.

(* ------------------------------------------------------------------ *)
(** ** The search form: [getPostTypesFromForm] *)

Lemma slice_last_snoc {A : Type} (init : list A) (x : A) :
  slice_last (init ++ [x])%list = [x].
Proof.
  induction init as [| y t IH]; simpl; [reflexivity |].
  rewrite IH. destruct (t ++ [x])%list eqn:E; [| reflexivity].
  now destruct t.
Qed.

Lemma fd_has_getAll (data : FormData) (name : string) :
  fd_has data name = true ->
  exists init x, fd_getAll data name = (init ++ [x])%list.
Proof.
  unfold fd_has, fd_getAll. intros H.
  apply existsb_exists in H as [e [Hin He]].
  assert (Hne : map snd (filter (fun e => String.eqb (fst e) name) data)
                <> []).
  { intros E. apply map_eq_nil in E.
    assert (Hf : In e (filter (fun e => String.eqb (fst e) name) data))
      by (apply filter_In; now split).
    rewrite E in Hf. contradiction. }
  destruct (exists_last Hne) as [init [x E]]. now exists init, x.
Qed.

Lemma fd_has_false_getAll (data : FormData) (name : string) :
  fd_has data name = false -> fd_getAll data name = [].
Proof.
  unfold fd_has, fd_getAll.
  induction data as [| [k v] t IH]; simpl; [reflexivity |].
  destruct (String.eqb k name); simpl; [discriminate | exact IH].
Qed.

Lemma obj_lookup_None_iff (o : JsObject) (k : string) :
  obj_lookup o k = None <-> ~ In k (obj_keys o).
Proof.
  split; [| apply obj_lookup_absent].
  unfold obj_keys.
  induction o as [| [k' v'] t IH]; simpl; [tauto |].
  destruct (String.eqb_spec k' k) as [-> | Hne]; [discriminate |].
  intros H [E | Hin]; [contradiction | now apply IH].
Qed.

Lemma serialize_fold_keys (sp : JsVal -> ArgSchema -> JsVal)
    (args : JsObject) (prefix : string) (schema : Schema)
    (acc : URLSearchParams) (name : string) :
  In name (usp_keys (fold_left (param_step sp args prefix) schema acc)) ->
  In name (usp_keys acc) \/ owned schema prefix name = true.
Proof.
  revert acc.
  induction schema as [| [arg options] rest IH]; cbn [fold_left];
    intros acc H; [now left |].
  assert (Hmono : forall n, owned rest prefix n = true ->
                            owned ((arg, options) :: rest) prefix n = true).
  { intros n Hn. unfold owned in *. simpl. now rewrite Hn, orb_true_r. }
  apply IH in H as [H | H]; [| right; now apply Hmono].
  rewrite param_step_param_of in H.
  destruct (param_of sp args arg options); [| now left].
  apply usp_set_keys in H as [H | ->]; [now left | right].
  unfold owned. simpl. now rewrite String.eqb_refl.
Qed.

Lemma owned_append (schema : Schema) (prefix arg : string) :
  In arg (schema_keys schema) -> owned schema prefix (prefix ++ arg) = true.
Proof. intros H. apply owned_spec. now exists arg. Qed.

(* ------------------------------------------------------------------ *)
(** ** The properties of the specification *)

(** C1 (as the code has it). For distinct schema keys, the result of
    [getArgsFromUrlParams] holds at each schema key the answer of
    [sanitizeArg]: called with the first value of [prefix + key] when the
    parameter is there, and with [null] (what [URLSearchParams.get] answers
    for a missing name, and not [undefined]) when it is not. A key whose
    answer is [null] is not in the result at all, and no key outside the
    schema is. *)
Theorem getArgsFromUrlParams_values
    (sanitizeArg : JsVal -> ArgSchema -> bool -> JsVal)
    (urlParams : URLSearchParams) (schema : Schema) (prefix : string)
    (useDefaults : bool) :
  NoDup (schema_keys schema) ->
  let args :=
    getArgsFromUrlParams sanitizeArg urlParams schema prefix useDefaults in
  (forall arg options, In (arg, options) schema ->
     (forall s rest,
         usp_getAll urlParams (prefix ++ arg) = s :: rest ->
         obj_lookup args arg
         = present (sanitizeArg (JStr s) options useDefaults))
     /\ (usp_has urlParams (prefix ++ arg) = false ->
         obj_lookup args arg
         = present (sanitizeArg JNull options useDefaults))
     /\ (obj_lookup args arg = None <-> ~ In arg (obj_keys args)))
  /\ (forall k, ~ In k (schema_keys schema) -> ~ In k (obj_keys args)).
Proof.
  intros Hnd args. split.
  - intros arg options Hin.
    assert (Hl : obj_lookup args arg
                 = present (sanitizeArg (usp_get urlParams (prefix ++ arg))
                              options useDefaults)).
    { unfold args, getArgsFromUrlParams.
      apply deserialize_fold_lookup; [assumption | assumption | intros []]. }
    split; [| split].
    + intros s rest E. rewrite Hl. unfold usp_get. now rewrite E.
    + intros Hhas. rewrite Hl.
      destruct (usp_get_cases urlParams (prefix ++ arg))
        as [[s [rest [E _]]] | [_ ->]]; [| reflexivity].
      exfalso.
      assert (Hk : In (prefix ++ arg) (usp_keys urlParams)).
      { destruct (in_dec string_dec (prefix ++ arg) (usp_keys urlParams))
          as [Hi | Hni]; [assumption |].
        rewrite (usp_getAll_absent _ _ Hni) in E. discriminate. }
      apply usp_has_keys in Hk. congruence.
    + apply obj_lookup_None_iff.
  - intros k Hk Hin. unfold args, getArgsFromUrlParams in Hin.
    apply deserialize_fold_keys in Hin as [[] | Hin]. contradiction.
Qed.

Lemma getArgsFromUrlParams_values_witness :
  NoDup (schema_keys sample_schema)
  /\ obj_lookup
       (getArgsFromUrlParams sample_sanitizeArg [("s_q", "chairs")]
          sample_schema "s_" true) "q"
     = Some (JStr "chairs")
  /\ obj_lookup
       (getArgsFromUrlParams sample_sanitizeArg [("s_q", "chairs")]
          sample_schema "s_" true) "orderby"
     = Some (JStr "relevance").
Proof.
  assert (Hnd : NoDup (schema_keys sample_schema))
    by (apply distinct_NoDup; reflexivity).
  split; [exact Hnd |].
  destruct (getArgsFromUrlParams_values sample_sanitizeArg
              [("s_q", "chairs")] sample_schema "s_" true Hnd) as [Hv _].
  split.
  - destruct (Hv "q" string_arg (or_introl eq_refl)) as [Hs _].
    exact (Hs "chairs" [] eq_refl).
  - destruct (Hv "orderby" _ (or_intror (or_introl eq_refl)))
      as [_ [Hn _]].
    exact (Hn eq_refl).
Defined.

(** C1 (as stated, refuted). With no parameter [q] in the URL, the code
    hands [null] to [sanitizeArg]: a sanitizer that tells [undefined] from
    [null] answers [null] and the key is left out, where the call with
    [undefined] would have bound it. *)
Lemma getArgsFromUrlParams_absent_not_undefined :
  usp_has [] "q" = false
  /\ present (defaulting_sanitizeArg JUndefined string_arg true)
     = Some (JStr "any")
  /\ obj_lookup
       (getArgsFromUrlParams defaulting_sanitizeArg [] [("q", string_arg)]
          "" true) "q"
     = None.
Proof. repeat split. Qed.

(** C2. For distinct schema keys, [getUrlParamsFromArgs] emits for a schema
    key: nothing when the argument is [undefined] (and then the sanitizer is
    not consulted: the output is the same for any sanitizer that agrees on
    the defined values); nothing when [sanitizeParam] answers [null];
    exactly one pair [prefix + key], holding the answer, when the answer is
    a string (any other answer but [null] is emitted through [ToString]).
    Every name in the output is [prefix + key] for a schema key. *)
Theorem getUrlParamsFromArgs_entries
    (sanitizeParam : JsVal -> ArgSchema -> JsVal)
    (args : JsObject) (schema : Schema) (prefix : string) :
  NoDup (schema_keys schema) ->
  let urlParams := getUrlParamsFromArgs sanitizeParam args schema prefix in
  (forall arg options, In (arg, options) schema ->
     (obj_get args arg = JUndefined ->
      usp_getAll urlParams (prefix ++ arg) = [])
     /\ (obj_get args arg <> JUndefined ->
         sanitizeParam (obj_get args arg) options = JNull ->
         usp_getAll urlParams (prefix ++ arg) = [])
     /\ (forall s,
           obj_get args arg <> JUndefined ->
           sanitizeParam (obj_get args arg) options = JStr s ->
           usp_getAll urlParams (prefix ++ arg) = [s])
     /\ (forall r,
           obj_get args arg <> JUndefined ->
           sanitizeParam (obj_get args arg) options = r ->
           r <> JNull ->
           usp_getAll urlParams (prefix ++ arg) = [ToString r]))
  /\ (forall name, In name (usp_keys urlParams) ->
        exists arg, In arg (schema_keys schema) /\ name = prefix ++ arg)
  /\ (forall sanitizeParam',
        (forall v o, v <> JUndefined ->
                     sanitizeParam' v o = sanitizeParam v o) ->
        getUrlParamsFromArgs sanitizeParam' args schema prefix = urlParams).
Proof.
  intros Hnd urlParams. split; [| split].
  - intros arg options Hin.
    assert (Hg : usp_getAll urlParams (prefix ++ arg)
                 = match param_of sanitizeParam args arg options with
                   | Some s => [s]
                   | None => []
                   end).
    { unfold urlParams. rewrite serialize_flat_map by assumption.
      now apply emit_getAll. }
    rewrite Hg. unfold param_of. split; [| split; [| split]].
    + now intros ->.
    + destruct (obj_get args arg); intros Hdef Hnull;
        try (now elim Hdef); now rewrite Hnull.
    + intros s. destruct (obj_get args arg); intros Hdef Hs;
        try (now elim Hdef); now rewrite Hs.
    + intros r. destruct (obj_get args arg); intros Hdef Hr Hnn;
        try (now elim Hdef); rewrite Hr;
        destruct r; try reflexivity; now elim Hnn.
  - intros name Hin. unfold urlParams, getUrlParamsFromArgs in Hin.
    apply serialize_fold_keys in Hin as [[] | Hin].
    now apply owned_spec.
  - intros sp' Hsp. now apply serialize_ext.
Qed.

Lemma getUrlParamsFromArgs_entries_witness :
  NoDup (schema_keys sample_schema)
  /\ usp_getAll
       (getUrlParamsFromArgs sample_sanitizeParam
          [("orderby", JStr "date"); ("page", JNum 2)] sample_schema "s_")
       "s_orderby"
     = ["date"]
  /\ usp_getAll
       (getUrlParamsFromArgs sample_sanitizeParam
          [("orderby", JStr "date"); ("page", JNum 2)] sample_schema "s_")
       "s_q"
     = [].
Proof.
  assert (Hnd : NoDup (schema_keys sample_schema))
    by (apply distinct_NoDup; reflexivity).
  split; [exact Hnd |].
  destruct (getUrlParamsFromArgs_entries sample_sanitizeParam
              [("orderby", JStr "date"); ("page", JNum 2)]
              sample_schema "s_" Hnd) as [Hv _].
  split.
  - destruct (Hv "orderby" _ (or_intror (or_introl eq_refl)))
      as [_ [_ [Hs _]]].
    apply Hs; [discriminate | reflexivity].
  - destruct (Hv "q" _ (or_introl eq_refl)) as [Hu _].
    exact (Hu eq_refl).
Defined.

(** The parameter that serialization emits for an accepted value. *)
Lemma serialize_accepted (sp : JsVal -> ArgSchema -> JsVal)
    (sa : JsVal -> ArgSchema -> bool -> JsVal)
    (args : JsObject) (schema : Schema) (prefix : string)
    (arg : string) (options : ArgSchema) :
  NoDup (schema_keys schema) ->
  In (arg, options) schema ->
  accepted sp sa options (obj_get args arg) ->
  usp_get (getUrlParamsFromArgs sp args schema prefix) (prefix ++ arg)
  = JStr (ToString (sp (obj_get args arg) options)).
Proof.
  intros Hnd Hin [Hu [_ [Hp _]]].
  unfold usp_get. rewrite serialize_flat_map by assumption.
  rewrite (emit_getAll sp args prefix schema arg options Hnd Hin).
  unfold param_of.
  destruct (obj_get args arg); try contradiction;
    match goal with
    | |- context [sp ?v options] =>
        destruct (sp v options); try contradiction; reflexivity
    end.
Qed.

(** C3. For distinct schema keys, if every property of [args] is a schema
    key whose value the sanitizers of that key accept, then deserializing
    the serialization of [args] without defaults restores every property of
    [args]. *)
Theorem codec_round_trip
    (sanitizeParam : JsVal -> ArgSchema -> JsVal)
    (sanitizeArg : JsVal -> ArgSchema -> bool -> JsVal)
    (args : JsObject) (schema : Schema) (prefix : string) :
  NoDup (schema_keys schema) ->
  (forall k v, obj_lookup args k = Some v ->
     exists options,
       In (k, options) schema
       /\ accepted sanitizeParam sanitizeArg options v) ->
  forall k v,
    obj_lookup args k = Some v ->
    obj_lookup
      (getArgsFromUrlParams sanitizeArg
         (getUrlParamsFromArgs sanitizeParam args schema prefix)
         schema prefix false) k
    = Some v.
Proof.
  intros Hnd Hacc k v Hk.
  destruct (Hacc k v Hk) as [options [Hin Ha]].
  assert (Hget : obj_get args k = v) by (unfold obj_get; now rewrite Hk).
  unfold getArgsFromUrlParams.
  rewrite (deserialize_fold_lookup sanitizeArg _ prefix false schema []
             k options Hnd Hin) by (intros []).
  rewrite <- Hget in Ha.
  rewrite (serialize_accepted sanitizeParam sanitizeArg args schema prefix
             k options Hnd Hin Ha).
  destruct Ha as [_ [Hn [_ Hr]]]. rewrite Hr, Hget. rewrite Hget in Hn.
  unfold present. destruct v; try reflexivity. contradiction.
Qed.

Lemma codec_round_trip_witness :
  NoDup (schema_keys sample_schema)
  /\ (forall k v,
        obj_lookup [("orderby", JStr "date"); ("q", JStr "chairs")] k
        = Some v ->
        exists options,
          In (k, options) sample_schema
          /\ accepted sample_sanitizeParam sample_sanitizeArg options v)
  /\ obj_lookup
       (getArgsFromUrlParams sample_sanitizeArg
          (getUrlParamsFromArgs sample_sanitizeParam
             [("orderby", JStr "date"); ("q", JStr "chairs")]
             sample_schema "s_")
          sample_schema "s_" false) "orderby"
     = Some (JStr "date").
Proof.
  assert (Hnd : NoDup (schema_keys sample_schema))
    by (apply distinct_NoDup; reflexivity).
  assert (Hacc : forall k v,
             obj_lookup [("orderby", JStr "date"); ("q", JStr "chairs")] k
             = Some v ->
             exists options,
               In (k, options) sample_schema
               /\ accepted sample_sanitizeParam sample_sanitizeArg options v).
  { intros k v. cbn [obj_lookup].
    destruct (String.eqb_spec "orderby" k) as [<- | _].
    - intros [= <-]. eexists. split; [right; left; reflexivity |].
      repeat split; discriminate.
    - destruct (String.eqb_spec "q" k) as [<- | _]; [| discriminate].
      intros [= <-]. eexists. split; [left; reflexivity |].
      repeat split; discriminate. }
  split; [exact Hnd |]. split; [exact Hacc |].
  exact (codec_round_trip sample_sanitizeParam sample_sanitizeArg
           [("orderby", JStr "date"); ("q", JStr "chairs")]
           sample_schema "s_" Hnd Hacc "orderby" (JStr "date") eq_refl).
Defined.

(** C4. [getUrlWithParams] returns the serialization of the current URL
    with its parameter list replaced by: the current list without the pairs
    whose name starts with the prefix, and then, when a parameter set is
    supplied, each supplied pair set in iteration order. After that a
    supplied name holds exactly its last supplied value; any other name
    holds nothing if it starts with the prefix and its current values if it
    does not. Without a parameter set only the stripping is done. *)
Theorem getUrlWithParams_rewrite
    (URL_parse : string -> URL) (URL_toString : URL -> string)
    (href paramPrefix : string) (params : option URLSearchParams) :
  let url := URL_parse href in
  let stripped := strip paramPrefix (searchParams url) in
  getUrlWithParams URL_parse URL_toString href paramPrefix params
  = URL_toString
      (with_searchParams url
         match params with
         | Some ps =>
             fold_left (fun l kv => usp_set l (fst kv) (snd kv)) ps stripped
         | None => stripped
         end)
  /\ (forall name,
        usp_getAll stripped name
        = if String.prefix paramPrefix name then []
          else usp_getAll (searchParams url) name)
  /\ (forall ps name,
        usp_getAll
          (fold_left (fun l kv => usp_set l (fst kv) (snd kv)) ps stripped)
          name
        = match usp_last ps name with
          | Some v => [v]
          | None => usp_getAll stripped name
          end).
Proof.
  intros url stripped. split; [| split].
  - unfold getUrlWithParams. fold url.
    rewrite rewrite_params_strip. reflexivity.
  - intros name. unfold stripped.
    destruct (String.prefix paramPrefix name) eqn:E.
    + now apply strip_getAll_gone.
    + now apply strip_getAll_kept.
  - intros ps name. apply set_all_getAll.
Qed.

(** C5. When the form has a field [post_type], [getPostTypesFromForm]
    returns its last value alone, whatever the fields [post_type[]] hold;
    when it has only [post_type[]], all the values of that field; when it
    has neither, the empty list. *)
Theorem getPostTypesFromForm_precedence (form : FormData) :
  (fd_has form "post_type" = true ->
   fd_has form "post_type[]" = true ->
   exists init x,
     fd_getAll form "post_type" = (init ++ [x])%list
     /\ getPostTypesFromForm form = [x])
  /\ (forall form',
        fd_has form "post_type" = true ->
        fd_getAll form' "post_type" = fd_getAll form "post_type" ->
        getPostTypesFromForm form' = getPostTypesFromForm form)
  /\ (fd_has form "post_type" = false ->
      fd_has form "post_type[]" = true ->
      getPostTypesFromForm form = fd_getAll form "post_type[]")
  /\ (fd_has form "post_type" = false ->
      fd_has form "post_type[]" = false ->
      getPostTypesFromForm form = []).
Proof.
  unfold getPostTypesFromForm. repeat split.
  - intros H1 _. rewrite H1.
    destruct (fd_has_getAll form "post_type" H1) as [init [x E]].
    exists init, x. split; [assumption |].
    rewrite E. apply slice_last_snoc.
  - intros form' H1 E. rewrite H1, E.
    destruct (fd_has form' "post_type") eqn:H1'; [reflexivity |].
    apply fd_has_false_getAll in H1'.
    destruct (fd_has_getAll form "post_type" H1) as [init [x Ex]].
    rewrite <- E, H1' in Ex. now destruct init.
  - intros H1 H2. now rewrite H1, H2.
  - intros H1 H2. now rewrite H1, H2.
Qed.

(** C6 (as the code has it). When no parameter set is supplied, or every
    name of the supplied set starts with the prefix, and the platform reads
    the URL it has written back as it wrote it, a second application of
    [getUrlWithParams] with the same prefix and parameter set to the result
    of the first returns that result again. *)
Theorem getUrlWithParams_idempotent
    (URL_parse : string -> URL) (URL_toString : URL -> string)
    (href paramPrefix : string) (params : option URLSearchParams) :
  (forall ps, params = Some ps ->
     forall name, In name (usp_keys ps) ->
                  String.prefix paramPrefix name = true) ->
  let first :=
    getUrlWithParams URL_parse URL_toString href paramPrefix params in
  URL_parse first
  = with_searchParams (URL_parse href)
      (rewrite_params paramPrefix params (searchParams (URL_parse href))) ->
  getUrlWithParams URL_parse URL_toString first paramPrefix params = first.
Proof.
  intros Hp first Hback.
  unfold getUrlWithParams at 1. rewrite Hback.
  cbn [searchParams with_searchParams].
  rewrite rewrite_params_idem by assumption.
  reflexivity.
Qed.

Lemma getUrlWithParams_idempotent_witness :
  (forall ps, Some [("s_q", "chairs"); ("s_page", "3")] = Some ps ->
     forall name, In name (usp_keys ps) -> String.prefix "s_" name = true)
  /\ plain_parse
       (getUrlWithParams plain_parse plain_toString
          "https://example.com/?s_q=tables&page=2#top" "s_"
          (Some [("s_q", "chairs"); ("s_page", "3")]))
     = with_searchParams
         (plain_parse "https://example.com/?s_q=tables&page=2#top")
         (rewrite_params "s_" (Some [("s_q", "chairs"); ("s_page", "3")])
            (searchParams
               (plain_parse "https://example.com/?s_q=tables&page=2#top")))
  /\ getUrlWithParams plain_parse plain_toString
       (getUrlWithParams plain_parse plain_toString
          "https://example.com/?s_q=tables&page=2#top" "s_"
          (Some [("s_q", "chairs"); ("s_page", "3")]))
       "s_" (Some [("s_q", "chairs"); ("s_page", "3")])
     = "https://example.com/?page=2&s_q=chairs&s_page=3#top".
Proof.
  assert (Hp : forall ps,
             Some [("s_q", "chairs"); ("s_page", "3")] = Some ps ->
             forall name, In name (usp_keys ps) ->
                          String.prefix "s_" name = true).
  { intros ps [= <-] name [<- | [<- | []]]; reflexivity. }
  split; [exact Hp |]. split; [reflexivity |].
  exact (getUrlWithParams_idempotent plain_parse plain_toString
           "https://example.com/?s_q=tables&page=2#top" "s_"
           (Some [("s_q", "chairs"); ("s_page", "3")]) Hp eq_refl).
Defined.

(** C6 (as stated, refuted). With a supplied name outside the prefix that
    the URL does not hold yet, after one under the prefix, the second
    application moves the pair under the prefix behind the other one: the
    two results differ. *)
Lemma getUrlWithParams_second_differs :
  getUrlWithParams plain_parse plain_toString
    "https://example.com/" "s_" (Some [("s_q", "chairs"); ("page", "2")])
  = "https://example.com/?s_q=chairs&page=2"
  /\ plain_parse "https://example.com/?s_q=chairs&page=2"
     = mkURL "https://example.com/" [("s_q", "chairs"); ("page", "2")] ""
  /\ getUrlWithParams plain_parse plain_toString
       "https://example.com/?s_q=chairs&page=2" "s_"
       (Some [("s_q", "chairs"); ("page", "2")])
     = "https://example.com/?page=2&s_q=chairs"
  /\ getUrlWithParams plain_parse plain_toString
       (getUrlWithParams plain_parse plain_toString
          "https://example.com/" "s_"
          (Some [("s_q", "chairs"); ("page", "2")]))
       "s_" (Some [("s_q", "chairs"); ("page", "2")])
     <> getUrlWithParams plain_parse plain_toString
          "https://example.com/" "s_"
          (Some [("s_q", "chairs"); ("page", "2")]).
Proof. repeat split. vm_compute. discriminate. Qed.

(** C7 (as the code has it). Deserialization reads the parameters only at
    the names [prefix + key] of schema keys: dropping every other pair
    changes nothing, and the result has schema keys only. Serialization
    reads the arguments only at schema keys and writes only names
    [prefix + key] of schema keys. In the URL rewrite the removal loop
    takes no pair whose name does not start with the prefix, and every such
    name of the current URL is still there in the result: with its values
    as they were when the supplied set does not name it, and with the last
    supplied value alone when it does ([set] overwrites the first pair of
    the name and drops the others). *)
Theorem codec_frame
    (sanitizeParam : JsVal -> ArgSchema -> JsVal)
    (sanitizeArg : JsVal -> ArgSchema -> bool -> JsVal)
    (schema : Schema) (prefix : string) :
  (forall urlParams useDefaults,
     getArgsFromUrlParams sanitizeArg
       (filter (fun e => owned schema prefix (fst e)) urlParams)
       schema prefix useDefaults
     = getArgsFromUrlParams sanitizeArg urlParams schema prefix useDefaults)
  /\ (forall urlParams useDefaults k,
        In k (obj_keys (getArgsFromUrlParams sanitizeArg urlParams schema
                          prefix useDefaults)) ->
        In k (schema_keys schema))
  /\ (forall args args',
        (forall k, In k (schema_keys schema) ->
                   obj_get args' k = obj_get args k) ->
        getUrlParamsFromArgs sanitizeParam args' schema prefix
        = getUrlParamsFromArgs sanitizeParam args schema prefix)
  /\ (forall args name,
        In name (usp_keys (getUrlParamsFromArgs sanitizeParam args schema
                             prefix)) ->
        owned schema prefix name = true
        /\ String.prefix prefix name = true)
  /\ (forall URL_parse URL_toString href paramPrefix params,
        let current := searchParams (URL_parse href) in
        let rewritten := rewrite_params paramPrefix params current in
        getUrlWithParams URL_parse URL_toString href paramPrefix params
        = URL_toString (with_searchParams (URL_parse href) rewritten)
        /\ forall name,
             String.prefix paramPrefix name = false ->
             (usp_has current name = true ->
              usp_has rewritten name = true)
             /\ ((forall ps, params = Some ps -> usp_has ps name = false) ->
                 usp_getAll rewritten name = usp_getAll current name)
             /\ usp_getAll (rewrite_params paramPrefix None current) name
                = usp_getAll current name
             /\ (forall ps v,
                   params = Some ps -> usp_last ps name = Some v ->
                   usp_getAll rewritten name = [v])).
Proof.
  split; [| split; [| split; [| split]]].
  - intros urlParams useDefaults. apply deserialize_ext.
    intros arg Harg. unfold usp_get.
    rewrite (usp_getAll_filter (owned schema prefix)); [reflexivity |].
    now apply owned_append.
  - intros urlParams useDefaults k Hin.
    unfold getArgsFromUrlParams in Hin.
    apply deserialize_fold_keys in Hin as [[] | Hin]. assumption.
  - intros args args' H. now apply serialize_ext.
  - intros args name Hin. unfold getUrlParamsFromArgs in Hin.
    apply serialize_fold_keys in Hin as [[] | Hin].
    split; [assumption |].
    apply owned_spec in Hin as [arg [_ ->]]. apply prefix_append.
  - intros URL_parse URL_toString href paramPrefix params current rewritten.
    split; [reflexivity |].
    intros name Hp.
    assert (Hall : forall ps, usp_has ps name = false ->
                              usp_last ps name = None).
    { intros ps Hps. apply usp_last_absent. rewrite <- usp_has_keys.
      congruence. }
    unfold rewritten. rewrite !rewrite_params_strip.
    split; [| split; [| split]].
    + intros Hc. apply usp_has_keys. apply usp_has_keys in Hc.
      assert (Hs : In name (usp_keys (strip paramPrefix current)))
        by (apply strip_keys; now split).
      destruct params as [ps |]; [| exact Hs].
      apply set_all_keys. now left.
    + intros Hps. destruct params as [ps |].
      * rewrite set_all_getAll, (Hall ps (Hps ps eq_refl)).
        now apply strip_getAll_kept.
      * now apply strip_getAll_kept.
    + now apply strip_getAll_kept.
    + intros ps v -> Hlast. now rewrite set_all_getAll, Hlast.
Qed.

(** C7 (as stated, refuted). A supplied name that does not start with the
    prefix and that the current URL holds twice: [set] gives the first
    pair the supplied value and removes the second, so a parameter outside
    the prefix is removed by the rewrite. *)
Lemma getUrlWithParams_removes_outside_prefix :
  String.prefix "s_" "a" = false
  /\ usp_getAll
       (searchParams (plain_parse "https://example.com/?a=1&b=2&a=3")) "a"
     = ["1"; "3"]
  /\ rewrite_params "s_" (Some [("a", "9")])
       [("a", "1"); ("b", "2"); ("a", "3")]
     = [("a", "9"); ("b", "2")]
  /\ getUrlWithParams plain_parse plain_toString
       "https://example.com/?a=1&b=2&a=3" "s_" (Some [("a", "9")])
     = "https://example.com/?a=9&b=2"
  /\ ~ In ("a", "3")
        (rewrite_params "s_" (Some [("a", "9")])
           (searchParams (plain_parse "https://example.com/?a=1&b=2&a=3"))).
Proof.
  repeat split. vm_compute. intros [H | [H | []]]; discriminate.
Qed.

(** C8. For distinct schema keys, the output of [getUrlParamsFromArgs] is
    the concatenation, in schema order, of what each schema entry
    contributes (one pair or none); listing the properties of the arguments
    object in another order changes nothing. *)
Theorem getUrlParamsFromArgs_schema_order
    (sanitizeParam : JsVal -> ArgSchema -> JsVal)
    (args : JsObject) (schema : Schema) (prefix : string) :
  NoDup (schema_keys schema) ->
  getUrlParamsFromArgs sanitizeParam args schema prefix
  = flat_map
      (fun entry =>
         match param_of sanitizeParam args (fst entry) (snd entry) with
         | Some s => [(prefix ++ fst entry, s)]
         | None => []
         end) schema
  /\ (forall args',
        NoDup (obj_keys args) -> Permutation args args' ->
        getUrlParamsFromArgs sanitizeParam args' schema prefix
        = getUrlParamsFromArgs sanitizeParam args schema prefix).
Proof.
  intros Hnd. split.
  - now apply serialize_flat_map.
  - intros args' Hargs Hperm. apply serialize_ext; [reflexivity |].
    intros arg _. unfold obj_get.
    now rewrite (obj_lookup_Permutation args args' arg Hargs Hperm).
Qed.

Lemma getUrlParamsFromArgs_schema_order_witness :
  NoDup (schema_keys sample_schema)
  /\ NoDup (obj_keys [("orderby", JStr "date"); ("q", JStr "chairs")])
  /\ Permutation [("orderby", JStr "date"); ("q", JStr "chairs")]
       [("q", JStr "chairs"); ("orderby", JStr "date")]
  /\ getUrlParamsFromArgs sample_sanitizeParam
       [("orderby", JStr "date"); ("q", JStr "chairs")] sample_schema "s_"
     = [("s_q", "chairs"); ("s_orderby", "date")]
  /\ getUrlParamsFromArgs sample_sanitizeParam
       [("q", JStr "chairs"); ("orderby", JStr "date")] sample_schema "s_"
     = getUrlParamsFromArgs sample_sanitizeParam
         [("orderby", JStr "date"); ("q", JStr "chairs")] sample_schema "s_".
Proof.
  assert (Hnd : NoDup (schema_keys sample_schema))
    by (apply distinct_NoDup; reflexivity).
  assert (Hargs : NoDup (obj_keys [("orderby", JStr "date");
                                   ("q", JStr "chairs")]))
    by (apply distinct_NoDup; reflexivity).
  split; [exact Hnd |]. split; [exact Hargs |].
  split; [apply perm_swap |].
  destruct (getUrlParamsFromArgs_schema_order sample_sanitizeParam
              [("orderby", JStr "date"); ("q", JStr "chairs")]
              sample_schema "s_" Hnd) as [Hflat Hperm].
  split.
  - rewrite Hflat. reflexivity.
  - apply Hperm; [exact Hargs | apply perm_swap].
Defined.

(** C9 (as the code has it). [formatPrice] formats the number with a
    formatter built for the runtime's active locale, whatever the options
    are, and with the caller's options merged over the defaults
    [style: 'currency'] and [currencyDisplay: 'narrowSymbol']: a property
    of the options wins over the default of the same name, so the number is
    formatted as currency when the options do not set [style]. *)
Theorem formatPrice_call
    (R : Type) (NumberFormat_format : string -> JsObject -> JsVal -> R)
    (navigator_language : string) (number : JsVal) (options : JsObject) :
  NoDup (obj_keys options) ->
  let merged := obj_spread price_defaults options in
  formatPrice R NumberFormat_format navigator_language number options
  = NumberFormat_format navigator_language merged number
  /\ (forall k,
        obj_lookup merged k
        = match obj_lookup options k with
          | Some v => Some v
          | None => obj_lookup price_defaults k
          end)
  /\ (obj_lookup options "style" = None ->
      obj_lookup merged "style" = Some (JStr "currency"))
  /\ (obj_lookup options "currencyDisplay" = None ->
      obj_lookup merged "currencyDisplay" = Some (JStr "narrowSymbol")).
Proof.
  intros Hnd merged.
  assert (H : forall k,
             obj_lookup merged k
             = match obj_lookup options k with
               | Some v => Some v
               | None => obj_lookup price_defaults k
               end)
    by (intros k; now apply obj_lookup_spread).
  split; [reflexivity |]. split; [exact H |]. split.
  - intros Hs. now rewrite H, Hs.
  - intros Hs. now rewrite H, Hs.
Qed.

Lemma formatPrice_call_witness :
  NoDup (obj_keys [("currency", JStr "EUR")])
  /\ formatPrice (string * JsVal) probe_format "en-US" (JNum 5)
       [("currency", JStr "EUR")]
     = ("en-US", JStr "currency").
Proof.
  assert (Hnd : NoDup (obj_keys [("currency", JStr "EUR")]))
    by (apply distinct_NoDup; reflexivity).
  split; [exact Hnd |].
  destruct (formatPrice_call (string * JsVal) probe_format "en-US" (JNum 5)
              [("currency", JStr "EUR")] Hnd) as [Hcall _].
  rewrite Hcall. reflexivity.
Defined.

(** C9 (as stated, refuted). Options that set [style] replace the default:
    the number is not formatted as currency; and no option changes the
    locale the formatter is built for. *)
Lemma formatPrice_style_overridden :
  formatPrice (string * JsVal) probe_format "en-US" (JNum 5)
    [("style", JStr "percent"); ("locale", JStr "de-DE")]
  = ("en-US", JStr "percent").
Proof. reflexivity. Qed.

(** C10. No name occurs twice in the output of [getUrlParamsFromArgs]:
    [set] overwrites, so this holds for every schema list, and with the
    names also each [prefix + key] occurs at most once. *)
Theorem getUrlParamsFromArgs_no_duplicate_names
    (sanitizeParam : JsVal -> ArgSchema -> JsVal)
    (args : JsObject) (schema : Schema) (prefix : string) :
  NoDup (usp_keys (getUrlParamsFromArgs sanitizeParam args schema prefix))
  /\ forall name,
       (List.length (usp_getAll
                  (getUrlParamsFromArgs sanitizeParam args schema prefix)
                  name) <= 1)%nat.
Proof.
  assert (Hnd : NoDup (usp_keys (getUrlParamsFromArgs sanitizeParam args
                                   schema prefix))).
  { unfold getUrlParamsFromArgs. apply serialize_fold_NoDup. constructor. }
  split; [exact Hnd |].
  intros name. revert Hnd.
  generalize (getUrlParamsFromArgs sanitizeParam args schema prefix) as l.
  unfold usp_getAll, usp_keys.
  induction l as [| [k v] t IH]; simpl; intros Hnd; [lia |].
  inversion Hnd as [| ? ? Hn Hd]; subst.
  destruct (String.eqb_spec k name) as [-> | Hne]; simpl; [| auto].
  fold (usp_getAll t name). fold (usp_keys t) in Hn.
  rewrite (usp_getAll_absent t name Hn). simpl. lia.
Qed.

(* ------------------------------------------------------------------ *)
(** ** Further properties of the search form *)

Lemma fd_has_by_getAll (data : FormData) (name : string) :
  fd_has data name
  = match fd_getAll data name with
    | [] => false
    | _ :: _ => true
    end.
Proof.
  unfold fd_has, fd_getAll.
  induction data as [| [k v] t IH]; simpl; [reflexivity |].
  destruct (String.eqb k name); simpl; [reflexivity | exact IH].
Qed.

Lemma fd_getAll_filter (keep : string -> bool) (data : FormData)
    (name : string) :
  keep name = true ->
  fd_getAll (filter (fun e => keep (fst e)) data) name = fd_getAll data name.
Proof.
  intros Hk. unfold fd_getAll.
  induction data as [| [k v] t IH]; simpl; [reflexivity |].
  destruct (keep k) eqn:Ek; simpl.
  - destruct (String.eqb k name); simpl; now rewrite IH.
  - destruct (String.eqb_spec k name) as [-> | _]; [congruence | exact IH].
Qed.

(** The result is a function of the values of the two fields. *)
Lemma getPostTypesFromForm_by_getAll (form form' : FormData) :
  fd_getAll form' "post_type" = fd_getAll form "post_type" ->
  fd_getAll form' "post_type[]" = fd_getAll form "post_type[]" ->
  getPostTypesFromForm form' = getPostTypesFromForm form.
Proof.
  intros E1 E2. unfold getPostTypesFromForm.
  now rewrite !fd_has_by_getAll, E1, E2.
Qed.

(** X1. [getPostTypesFromForm] returns the empty list exactly when the form
    has neither a field [post_type] nor a field [post_type[]]. *)
Theorem getPostTypesFromForm_empty_iff (form : FormData) :
  getPostTypesFromForm form = []
  <-> fd_has form "post_type" = false /\ fd_has form "post_type[]" = false.
Proof.
  unfold getPostTypesFromForm.
  destruct (fd_has form "post_type") eqn:H1.
  - destruct (fd_has_getAll form "post_type" H1) as [init [x E]].
    rewrite E, slice_last_snoc. split; [discriminate | intros [H _]].
    discriminate.
  - destruct (fd_has form "post_type[]") eqn:H2.
    + destruct (fd_has_getAll form "post_type[]" H2) as [init [x E]].
      rewrite E. split; [| intros [_ H]; discriminate].
      intros H. now destruct init.
    + tauto.
Qed.

(** X2. The fields of any other name never influence the result: it is
    the same for the form reduced to its fields [post_type] and
    [post_type[]], and every value returned is a value the form holds
    under one of these two names. *)
Theorem getPostTypesFromForm_other_fields (form : FormData) :
  getPostTypesFromForm
    (filter (fun e => String.eqb (fst e) "post_type"
                      || String.eqb (fst e) "post_type[]") form)
  = getPostTypesFromForm form
  /\ forall x,
       In x (getPostTypesFromForm form) ->
       In ("post_type", x) form \/ In ("post_type[]", x) form.
Proof.
  split.
  - apply getPostTypesFromForm_by_getAll;
      apply (fd_getAll_filter
               (fun k => String.eqb k "post_type"
                         || String.eqb k "post_type[]")); reflexivity.
  - assert (Hin : forall name x, In x (fd_getAll form name) ->
                                 In (name, x) form).
    { intros name x. unfold fd_getAll. rewrite in_map_iff.
      intros [[k v] [Ev Hf]]. simpl in Ev. subst v.
      apply filter_In in Hf as [Hf Hk]. simpl in Hk.
      apply String.eqb_eq in Hk. now subst k. }
    intros x. unfold getPostTypesFromForm.
    destruct (fd_has form "post_type") eqn:H1.
    + destruct (fd_has_getAll form "post_type" H1) as [init [y E]].
      rewrite E, slice_last_snoc. intros [<- | []]. left.
      apply Hin. rewrite E. apply in_or_app. right. now left.
    + destruct (fd_has form "post_type[]"); [| intros []].
      intros Hx. right. now apply Hin.
Qed.

(* ------------------------------------------------------------------ *)
(** ** Further properties of the codec *)

Lemma eqb_append_l (p a b : string) :
  String.eqb (p ++ a) (p ++ b) = String.eqb a b.
Proof.
  destruct (String.eqb_spec a b) as [-> | Hne].
  - apply String.eqb_refl.
  - apply String.eqb_neq. intros E. apply append_inj_r in E. contradiction.
Qed.

Lemma usp_delete_length (l : URLSearchParams) (name : string) :
  (List.length (usp_delete l name) <= List.length l)%nat.
Proof. apply filter_length_le. Qed.

Lemma usp_set_length (l : URLSearchParams) (name value : string) :
  (List.length (usp_set l name value) <= S (List.length l))%nat.
Proof.
  induction l as [| [k v] t IH]; simpl; [lia |].
  destruct (String.eqb k name); simpl.
  - pose proof (usp_delete_length t name). lia.
  - lia.
Qed.

Lemma obj_set_length (o : JsObject) (k : string) (v : JsVal) :
  (List.length (obj_set o k v) <= S (List.length o))%nat.
Proof.
  induction o as [| [k' v'] t IH]; simpl; [lia |].
  destruct (String.eqb k' k); simpl; lia.
Qed.

Lemma obj_set_NoDup (o : JsObject) (k : string) (v : JsVal) :
  NoDup (obj_keys o) -> NoDup (obj_keys (obj_set o k v)).
Proof.
  unfold obj_keys.
  induction o as [| [k' v'] t IH]; simpl; intros H.
  - constructor; [intros [] | constructor].
  - inversion H as [| ? ? Hn Hd]; subst.
    destruct (String.eqb_spec k' k) as [-> | Hne]; simpl.
    + now constructor.
    + constructor; [| now apply IH].
      fold (obj_keys (obj_set t k v)). rewrite obj_set_keys.
      intros [Hin | ->]; [now apply Hn | now apply Hne].
Qed.

(** X3. When the arguments object holds no defined value at any schema
    key (the empty object, for one), [getUrlParamsFromArgs] returns no
    parameter at all, whatever the sanitizer, the schema's defaults and the
    prefix are. *)
Theorem getUrlParamsFromArgs_nothing_defined
    (sanitizeParam : JsVal -> ArgSchema -> JsVal)
    (args : JsObject) (schema : Schema) (prefix : string) :
  (forall arg, In arg (schema_keys schema) -> obj_get args arg = JUndefined) ->
  getUrlParamsFromArgs sanitizeParam args schema prefix = [].
Proof.
  unfold getUrlParamsFromArgs. generalize (@nil (string * string)).
  induction schema as [| [arg options] rest IH]; cbn [fold_left];
    intros acc H; [reflexivity |].
  rewrite param_step_param_of. unfold param_of.
  rewrite (H arg) by now left.
  apply IH. intros a Ha. apply H. now right.
Qed.

Lemma getUrlParamsFromArgs_nothing_defined_witness :
  (forall arg, In arg (schema_keys sample_schema) ->
               obj_get [("page", JNum 2)] arg = JUndefined)
  /\ getUrlParamsFromArgs sample_sanitizeParam [("page", JNum 2)]
       sample_schema "s_"
     = [].
Proof.
  assert (H : forall arg, In arg (schema_keys sample_schema) ->
                          obj_get [("page", JNum 2)] arg = JUndefined).
  { intros arg [<- | [<- | []]]; reflexivity. }
  split; [exact H |].
  exact (getUrlParamsFromArgs_nothing_defined sample_sanitizeParam
           [("page", JNum 2)] sample_schema "s_" H).
Defined.

(** X4. Neither direction of the codec yields more entries than the schema
    has: the parameters of [getUrlParamsFromArgs] and the properties of
    [getArgsFromUrlParams] are at most as many as the schema entries, and
    the properties of the latter are distinct, for every schema list. *)
Theorem codec_size_bounds
    (sanitizeParam : JsVal -> ArgSchema -> JsVal)
    (sanitizeArg : JsVal -> ArgSchema -> bool -> JsVal)
    (schema : Schema) (prefix : string) :
  (forall args,
     (List.length (getUrlParamsFromArgs sanitizeParam args schema prefix)
      <= List.length schema)%nat)
  /\ (forall urlParams useDefaults,
        (List.length (getArgsFromUrlParams sanitizeArg urlParams schema
                        prefix useDefaults)
         <= List.length schema)%nat
        /\ NoDup (obj_keys (getArgsFromUrlParams sanitizeArg urlParams
                              schema prefix useDefaults))).
Proof.
  split.
  - intros args. unfold getUrlParamsFromArgs.
    assert (H : forall acc,
               (List.length (fold_left (param_step sanitizeParam args prefix)
                               schema acc)
                <= List.length acc + List.length schema)%nat).
    { induction schema as [| [arg options] rest IH]; cbn [fold_left];
        intros acc; [simpl; lia |].
      specialize (IH (param_step sanitizeParam args prefix acc
                        (arg, options))).
      rewrite param_step_param_of in IH |- *.
      destruct (param_of sanitizeParam args arg options) as [s |].
      - pose proof (usp_set_length acc (prefix ++ arg) s). simpl. lia.
      - simpl. lia. }
    apply (H []).
  - intros urlParams useDefaults. unfold getArgsFromUrlParams.
    assert (H : forall acc,
               NoDup (obj_keys acc) ->
               (List.length
                  (fold_left (arg_step sanitizeArg urlParams prefix
                                useDefaults) schema acc)
                <= List.length acc + List.length schema)%nat
               /\ NoDup (obj_keys
                           (fold_left (arg_step sanitizeArg urlParams prefix
                                         useDefaults) schema acc))).
    { induction schema as [| [arg options] rest IH]; cbn [fold_left];
        intros acc Hnd; [split; [simpl; lia | exact Hnd] |].
      specialize (IH (arg_step sanitizeArg urlParams prefix useDefaults acc
                        (arg, options))).
      rewrite arg_step_present in IH |- *.
      destruct (present (sanitizeArg (usp_get urlParams (prefix ++ arg))
                           options useDefaults)) as [v |].
      - destruct (IH (obj_set_NoDup acc arg v Hnd)) as [Hl Hn].
        split; [| exact Hn].
        pose proof (obj_set_length acc arg v). simpl. lia.
      - destruct (IH Hnd) as [Hl Hn]. split; [simpl; lia | exact Hn]. }
    apply (H []). constructor.
Qed.

Section PrefixRenaming.

Variable prefix : string.

Local Abbreviation rename :=
  (map (fun e : string * string => (prefix ++ fst e, snd e))).

Lemma usp_delete_rename (l : URLSearchParams) (name : string) :
  usp_delete (rename l) (prefix ++ name) = rename (usp_delete l name).
Proof.
  unfold usp_delete.
  induction l as [| [k v] t IH]; simpl; [reflexivity |].
  rewrite eqb_append_l. destruct (String.eqb k name); simpl; now rewrite IH.
Qed.

Lemma usp_set_rename (l : URLSearchParams) (name value : string) :
  usp_set (rename l) (prefix ++ name) value = rename (usp_set l name value).
Proof.
  induction l as [| [k v] t IH]; simpl; [reflexivity |].
  rewrite eqb_append_l. destruct (String.eqb k name); simpl.
  - now rewrite usp_delete_rename.
  - now rewrite IH.
Qed.

Lemma usp_getAll_rename (l : URLSearchParams) (name : string) :
  usp_getAll (rename l) (prefix ++ name) = usp_getAll l name.
Proof.
  unfold usp_getAll.
  induction l as [| [k v] t IH]; simpl; [reflexivity |].
  rewrite eqb_append_l. destruct (String.eqb k name); simpl; now rewrite IH.
Qed.

Lemma serialize_rename (sp : JsVal -> ArgSchema -> JsVal)
    (args : JsObject) (schema : Schema) (acc : URLSearchParams) :
  fold_left (param_step sp args prefix) schema (rename acc)
  = rename (fold_left (param_step sp args "") schema acc).
Proof.
  revert acc.
  induction schema as [| [arg options] rest IH]; cbn [fold_left];
    intros acc; [reflexivity |].
  rewrite <- IH. f_equal. rewrite !param_step_param_of.
  destruct (param_of sp args arg options) as [s |]; [| reflexivity].
  cbn [append]. now rewrite usp_set_rename.
Qed.

Lemma deserialize_rename (sa : JsVal -> ArgSchema -> bool -> JsVal)
    (l : URLSearchParams) (schema : Schema) (useDefaults : bool)
    (acc : JsObject) :
  fold_left (arg_step sa (rename l) prefix useDefaults) schema acc
  = fold_left (arg_step sa l "" useDefaults) schema acc.
Proof.
  revert acc.
  induction schema as [| [arg options] rest IH]; cbn [fold_left];
    intros acc; [reflexivity |].
  rewrite IH. f_equal. rewrite !arg_step_present.
  unfold usp_get. rewrite usp_getAll_rename. reflexivity.
Qed.

End PrefixRenaming.

(** X5. The prefix only renames: the output of [getUrlParamsFromArgs] for
    a prefix is its output for the empty prefix with the prefix put before
    every name, values and order unchanged. *)
Theorem getUrlParamsFromArgs_prefix_renames
    (sanitizeParam : JsVal -> ArgSchema -> JsVal)
    (args : JsObject) (schema : Schema) (prefix : string) :
  getUrlParamsFromArgs sanitizeParam args schema prefix
  = map (fun e => (prefix ++ fst e, snd e))
      (getUrlParamsFromArgs sanitizeParam args schema "").
Proof.
  unfold getUrlParamsFromArgs.
  now rewrite <- (serialize_rename prefix sanitizeParam args schema []).
Qed.

(** X6. Reading under a prefix undoes the renaming: [getArgsFromUrlParams]
    with a prefix, on parameters whose names all carry that prefix, gives
    what it gives with the empty prefix on the unprefixed parameters. In
    particular the arguments read back from the serialization are the same
    for every prefix. *)
Theorem getArgsFromUrlParams_prefix_renamed
    (sanitizeParam : JsVal -> ArgSchema -> JsVal)
    (sanitizeArg : JsVal -> ArgSchema -> bool -> JsVal)
    (schema : Schema) (prefix : string) (useDefaults : bool) :
  (forall urlParams,
     getArgsFromUrlParams sanitizeArg
       (map (fun e => (prefix ++ fst e, snd e)) urlParams)
       schema prefix useDefaults
     = getArgsFromUrlParams sanitizeArg urlParams schema "" useDefaults)
  /\ (forall args,
        getArgsFromUrlParams sanitizeArg
          (getUrlParamsFromArgs sanitizeParam args schema prefix)
          schema prefix useDefaults
        = getArgsFromUrlParams sanitizeArg
            (getUrlParamsFromArgs sanitizeParam args schema "")
            schema "" useDefaults).
Proof.
  split.
  - intros urlParams. unfold getArgsFromUrlParams.
    apply deserialize_rename.
  - intros args. unfold getArgsFromUrlParams, getUrlParamsFromArgs.
    pose proof (serialize_rename prefix sanitizeParam args schema []) as E.
    cbn [map] in E. rewrite E.
    apply deserialize_rename.
Qed.

(** X7. For distinct schema keys, the properties of the result of
    [getArgsFromUrlParams] come in schema order: the result is the
    concatenation, in schema order, of what each schema entry contributes
    (one property, or none when [sanitizeArg] answers [null]). *)
Theorem getArgsFromUrlParams_schema_order
    (sanitizeArg : JsVal -> ArgSchema -> bool -> JsVal)
    (urlParams : URLSearchParams) (schema : Schema) (prefix : string)
    (useDefaults : bool) :
  NoDup (schema_keys schema) ->
  getArgsFromUrlParams sanitizeArg urlParams schema prefix useDefaults
  = flat_map
      (fun entry =>
         match sanitizeArg (usp_get urlParams (prefix ++ fst entry))
                 (snd entry) useDefaults with
         | JNull => []
         | value => [(fst entry, value)]
         end) schema.
Proof.
  intros Hnd. unfold getArgsFromUrlParams.
  rewrite deserialize_fold_app by (assumption || intros ? ? []).
  cbn [app]. apply flat_map_ext. intros [arg options].
  unfold emit_arg, present. cbn [fst snd].
  destruct (sanitizeArg (usp_get urlParams (prefix ++ arg)) options
              useDefaults); reflexivity.
Qed.

Lemma getArgsFromUrlParams_schema_order_witness :
  NoDup (schema_keys sample_schema)
  /\ getArgsFromUrlParams sample_sanitizeArg
       [("s_orderby", "date"); ("page", "2"); ("s_q", "chairs")]
       sample_schema "s_" true
     = [("q", JStr "chairs"); ("orderby", JStr "date")].
Proof.
  assert (Hnd : NoDup (schema_keys sample_schema))
    by (apply distinct_NoDup; reflexivity).
  split; [exact Hnd |].
  rewrite (getArgsFromUrlParams_schema_order sample_sanitizeArg
             [("s_orderby", "date"); ("page", "2"); ("s_q", "chairs")]
             sample_schema "s_" true Hnd).
  reflexivity.
Defined.

Lemma usp_getAll_nil_absent (l : URLSearchParams) (name : string) :
  usp_getAll l name = [] -> ~ In name (usp_keys l).
Proof.
  unfold usp_getAll, usp_keys.
  induction l as [| [k v] t IH]; simpl; [tauto |].
  destruct (String.eqb_spec k name) as [-> | Hne]; simpl; [discriminate |].
  intros H [E | Hin]; [contradiction | now apply IH].
Qed.

(** X8. Of a repeated parameter only the first value is read: pairs put
    after the parameters change nothing in the result of
    [getArgsFromUrlParams] when each of their names is already there, or is
    not [prefix + key] for a schema key. *)
Theorem getArgsFromUrlParams_first_value
    (sanitizeArg : JsVal -> ArgSchema -> bool -> JsVal)
    (urlParams extra : URLSearchParams) (schema : Schema) (prefix : string)
    (useDefaults : bool) :
  (forall name, In name (usp_keys extra) ->
     usp_has urlParams name = true \/ owned schema prefix name = false) ->
  getArgsFromUrlParams sanitizeArg (urlParams ++ extra)%list schema prefix
    useDefaults
  = getArgsFromUrlParams sanitizeArg urlParams schema prefix useDefaults.
Proof.
  intros H. apply deserialize_ext. intros arg Harg.
  unfold usp_get. rewrite usp_getAll_app.
  destruct (usp_getAll urlParams (prefix ++ arg)) as [| v vs] eqn:E;
    [| reflexivity].
  rewrite (usp_getAll_absent extra); [reflexivity |].
  intros Hin. destruct (H _ Hin) as [Hhas | Hown].
  - apply usp_has_keys in Hhas. now apply (usp_getAll_nil_absent _ _ E).
  - rewrite (owned_append schema prefix arg Harg) in Hown. discriminate.
Qed.

Lemma getArgsFromUrlParams_first_value_witness :
  (forall name, In name (usp_keys [("s_q", "tables"); ("page", "3")]) ->
     usp_has [("s_q", "chairs")] name = true
     \/ owned sample_schema "s_" name = false)
  /\ getArgsFromUrlParams sample_sanitizeArg
       ([("s_q", "chairs")] ++ [("s_q", "tables"); ("page", "3")])%list
       sample_schema "s_" false
     = [("q", JStr "chairs")].
Proof.
  assert (H : forall name,
             In name (usp_keys [("s_q", "tables"); ("page", "3")]) ->
             usp_has [("s_q", "chairs")] name = true
             \/ owned sample_schema "s_" name = false).
  { intros name [<- | [<- | []]]; [left | right]; reflexivity. }
  split; [exact H |].
  rewrite (getArgsFromUrlParams_first_value sample_sanitizeArg
             [("s_q", "chairs")] [("s_q", "tables"); ("page", "3")]
             sample_schema "s_" false H).
  reflexivity.
Defined.

(** X9. From the URL to the arguments and back: for distinct schema keys,
    when [sanitizeArg] reads the first value of [prefix + key] as a value
    proper and [sanitizeParam] writes that value as the same string, the
    serialization of the deserialized arguments holds [prefix + key]
    exactly once, with that first value; further values of the name are
    gone. *)
Theorem codec_normalizes
    (sanitizeParam : JsVal -> ArgSchema -> JsVal)
    (sanitizeArg : JsVal -> ArgSchema -> bool -> JsVal)
    (urlParams : URLSearchParams) (schema : Schema) (prefix : string)
    (useDefaults : bool) (arg : string) (options : ArgSchema)
    (s : string) (rest : list string) :
  NoDup (schema_keys schema) ->
  In (arg, options) schema ->
  usp_getAll urlParams (prefix ++ arg) = s :: rest ->
  sanitizeArg (JStr s) options useDefaults <> JNull ->
  sanitizeArg (JStr s) options useDefaults <> JUndefined ->
  sanitizeParam (sanitizeArg (JStr s) options useDefaults) options = JStr s ->
  usp_getAll
    (getUrlParamsFromArgs sanitizeParam
       (getArgsFromUrlParams sanitizeArg urlParams schema prefix useDefaults)
       schema prefix)
    (prefix ++ arg)
  = [s].
Proof.
  intros Hnd Hin Hfirst Hnn Hnu Hback.
  rewrite serialize_flat_map by assumption.
  rewrite (emit_getAll sanitizeParam _ prefix schema arg options Hnd Hin).
  unfold param_of, obj_get, getArgsFromUrlParams.
  rewrite (deserialize_fold_lookup sanitizeArg urlParams prefix useDefaults
             schema [] arg options Hnd Hin) by (intros []).
  unfold usp_get. rewrite Hfirst. unfold present.
  destruct (sanitizeArg (JStr s) options useDefaults);
    try contradiction; cbn [not_null]; now rewrite Hback.
Qed.

Lemma codec_normalizes_witness :
  NoDup (schema_keys sample_schema)
  /\ usp_getAll
       (getUrlParamsFromArgs sample_sanitizeParam
          (getArgsFromUrlParams sample_sanitizeArg
             [("s_q", "chairs"); ("s_q", "tables")] sample_schema "s_" false)
          sample_schema "s_")
       "s_q"
     = ["chairs"].
Proof.
  assert (Hnd : NoDup (schema_keys sample_schema))
    by (apply distinct_NoDup; reflexivity).
  split; [exact Hnd |].
  apply (codec_normalizes sample_sanitizeParam sample_sanitizeArg
           [("s_q", "chairs"); ("s_q", "tables")] sample_schema "s_" false
           "q" string_arg "chairs" ["tables"] Hnd (or_introl eq_refl)
           eq_refl); try discriminate; reflexivity.
Defined.

(* ------------------------------------------------------------------ *)
(** ** Further properties of the URL rewrite *)

Lemma usp_getAll_NoDup (l : URLSearchParams) (name : string) :
  NoDup (usp_keys l) ->
  usp_getAll l name = [] \/ exists v, usp_getAll l name = [v].
Proof.
  unfold usp_getAll, usp_keys.
  induction l as [| [k v] t IH]; simpl; intros Hnd; [now left |].
  inversion Hnd as [| ? ? Hn Hd]; subst.
  destruct (String.eqb_spec k name) as [-> | Hne]; simpl; [| auto].
  right. exists v. f_equal.
  apply (usp_getAll_absent t name Hn).
Qed.

(** Under the prefix, the rewritten list holds what the supplied set of
    distinct names holds. *)
Lemma rewrite_reads_supplied (paramPrefix : string)
    (ps l : URLSearchParams) (name : string) :
  NoDup (usp_keys ps) ->
  String.prefix paramPrefix name = true ->
  usp_getAll (rewrite_params paramPrefix (Some ps) l) name
  = usp_getAll ps name.
Proof.
  intros Hnd Hp. rewrite rewrite_params_strip, set_all_getAll.
  unfold usp_last.
  destruct (usp_getAll_NoDup ps name Hnd) as [E | [v E]]; rewrite E; simpl.
  - now apply strip_getAll_gone.
  - reflexivity.
Qed.

Lemma deserialize_rewritten (sa : JsVal -> ArgSchema -> bool -> JsVal)
    (ps l : URLSearchParams) (schema : Schema) (prefix : string)
    (useDefaults : bool) :
  NoDup (usp_keys ps) ->
  getArgsFromUrlParams sa (rewrite_params prefix (Some ps) l) schema prefix
    useDefaults
  = getArgsFromUrlParams sa ps schema prefix useDefaults.
Proof.
  intros Hnd. apply deserialize_ext. intros arg _. unfold usp_get.
  rewrite rewrite_reads_supplied; [reflexivity | assumption |].
  apply prefix_append.
Qed.

(** X10. The two halves fit: whatever the current URL holds, the parameter
    list that [getUrlWithParams] writes for the serialized arguments reads
    back, under the same schema and prefix, as the serialized arguments
    themselves do. *)
Theorem getUrlWithParams_then_deserialize
    (sanitizeParam : JsVal -> ArgSchema -> JsVal)
    (sanitizeArg : JsVal -> ArgSchema -> bool -> JsVal)
    (URL_parse : string -> URL) (URL_toString : URL -> string)
    (href : string) (args : JsObject) (schema : Schema) (prefix : string)
    (useDefaults : bool) :
  let params := getUrlParamsFromArgs sanitizeParam args schema prefix in
  let written :=
    rewrite_params prefix (Some params) (searchParams (URL_parse href)) in
  getUrlWithParams URL_parse URL_toString href prefix (Some params)
  = URL_toString (with_searchParams (URL_parse href) written)
  /\ getArgsFromUrlParams sanitizeArg written schema prefix useDefaults
     = getArgsFromUrlParams sanitizeArg params schema prefix useDefaults.
Proof.
  intros params written. split; [reflexivity |].
  apply deserialize_rewritten.
  unfold params, getUrlParamsFromArgs. apply serialize_fold_NoDup.
  constructor.
Qed.

Lemma prefix_trans (p q s : string) :
  String.prefix p q = true -> String.prefix q s = true ->
  String.prefix p s = true.
Proof.
  revert q s. induction p as [| a p IH]; intros q s Hpq Hqs;
    [now destruct s |].
  destruct q as [| b q]; [discriminate |].
  destruct s as [| c s]; [discriminate |].
  simpl in *.
  destruct (ascii_dec a b) as [-> | _]; [| discriminate].
  destruct (ascii_dec b c) as [-> | _]; [| discriminate].
  destruct (ascii_dec c c) as [_ | n]; [| contradiction].
  now apply (IH q s).
Qed.

(** X11. Groups under other prefixes are not disturbed: when no name
    [prefix + key] of a schema starts with the prefix being rewritten, and
    the supplied set names none of them, [getArgsFromUrlParams] reads from
    the rewritten parameter list what it reads from the current one. *)
Theorem getUrlWithParams_other_group
    (sanitizeArg : JsVal -> ArgSchema -> bool -> JsVal)
    (paramPrefix : string) (params : option URLSearchParams)
    (current : URLSearchParams) (schema : Schema) (prefix : string)
    (useDefaults : bool) :
  (forall arg, In arg (schema_keys schema) ->
     String.prefix paramPrefix (prefix ++ arg) = false) ->
  (forall ps arg, params = Some ps -> In arg (schema_keys schema) ->
     usp_has ps (prefix ++ arg) = false) ->
  getArgsFromUrlParams sanitizeArg
    (rewrite_params paramPrefix params current) schema prefix useDefaults
  = getArgsFromUrlParams sanitizeArg current schema prefix useDefaults.
Proof.
  intros Hout Hnot. apply deserialize_ext. intros arg Harg.
  unfold usp_get. rewrite rewrite_params_strip.
  destruct params as [ps |].
  - rewrite set_all_getAll, usp_last_absent.
    + now rewrite strip_getAll_kept by auto.
    + rewrite <- usp_has_keys. rewrite (Hnot ps arg eq_refl Harg).
      discriminate.
  - now rewrite strip_getAll_kept by auto.
Qed.

Lemma getUrlWithParams_other_group_witness :
  (forall arg, In arg (schema_keys sample_schema) ->
     String.prefix "f_" ("s_" ++ arg) = false)
  /\ (forall ps arg, Some [("f_color", "red")] = Some ps ->
        In arg (schema_keys sample_schema) ->
        usp_has ps ("s_" ++ arg) = false)
  /\ getArgsFromUrlParams sample_sanitizeArg
       (rewrite_params "f_" (Some [("f_color", "red")])
          [("f_color", "blue"); ("s_q", "chairs")])
       sample_schema "s_" false
     = [("q", JStr "chairs")].
Proof.
  assert (H1 : forall arg, In arg (schema_keys sample_schema) ->
                           String.prefix "f_" ("s_" ++ arg) = false).
  { intros arg [<- | [<- | []]]; reflexivity. }
  assert (H2 : forall ps arg, Some [("f_color", "red")] = Some ps ->
                 In arg (schema_keys sample_schema) ->
                 usp_has ps ("s_" ++ arg) = false).
  { intros ps arg [= <-] [<- | [<- | []]]; reflexivity. }
  split; [exact H1 |]. split; [exact H2 |].
  rewrite (getUrlWithParams_other_group sample_sanitizeArg "f_"
             (Some [("f_color", "red")])
             [("f_color", "blue"); ("s_q", "chairs")]
             sample_schema "s_" false H1 H2).
  reflexivity.
Defined.

(** X12. With the empty prefix every name starts with the prefix:
    [getUrlWithParams] drops all the parameters of the current URL, and the
    result holds the supplied pairs alone (none without a supplied set). *)
Theorem getUrlWithParams_empty_prefix
    (URL_parse : string -> URL) (URL_toString : URL -> string)
    (href : string) (params : option URLSearchParams) :
  getUrlWithParams URL_parse URL_toString href "" params
  = URL_toString
      (with_searchParams (URL_parse href)
         match params with
         | Some ps => fold_left (fun l kv => usp_set l (fst kv) (snd kv)) ps []
         | None => []
         end).
Proof.
  unfold getUrlWithParams. rewrite rewrite_params_strip.
  rewrite (strip_all "" (searchParams (URL_parse href)))
    by (intros k _; now destruct k).
  reflexivity.
Qed.

(** X13. Clearing two prefixes gives the same parameter list in either
    order, and clearing a prefix makes clearing any longer prefix that
    starts with it redundant. *)
Theorem getUrlWithParams_clearing_commutes
    (p q : string) (current : URLSearchParams) :
  rewrite_params p None (rewrite_params q None current)
  = rewrite_params q None (rewrite_params p None current)
  /\ (String.prefix p q = true ->
      rewrite_params p None (rewrite_params q None current)
      = rewrite_params p None current).
Proof.
  rewrite !rewrite_params_strip. unfold strip. rewrite !filter_filter.
  split.
  - apply filter_ext. intros e. apply andb_comm.
  - intros Hpq. apply filter_ext. intros e.
    destruct (String.prefix q (fst e)) eqn:Eq; [| reflexivity].
    now rewrite (prefix_trans p q (fst e) Hpq Eq).
Qed.

(** X14. Clearing the prefix before rewriting it changes nothing, and
    neither does it to supply an empty set instead of none. *)
Theorem getUrlWithParams_clear_then_set
    (paramPrefix : string) (ps current : URLSearchParams) :
  rewrite_params paramPrefix (Some ps)
    (rewrite_params paramPrefix None current)
  = rewrite_params paramPrefix (Some ps) current
  /\ rewrite_params paramPrefix (Some []) current
     = rewrite_params paramPrefix None current.
Proof.
  rewrite !rewrite_params_strip. split; [| reflexivity].
  now rewrite strip_idem.
Qed.
